(** * dataset-boundary-fixer: duplicate detection and resolution

    A shallow embedding of [duplicate_finder.py] and [duplicate_fixer.py].

    - [Py] models the parts of the Python runtime the two scripts lean on:
      exceptions, insertion-ordered [dict], [str]/[int] conversion,
      [itertools.batched], text files and [csv.reader] (default dialect).
    - [Pg] models the data source: one table, a forward scan of [hex_id] and
      the [IN]-list query the fetcher sends as text.
    - [Finder] embeds [duplicate_finder.py], [Fixer] embeds [duplicate_fixer.py].
    - [Shapely] embeds the geometry sanitizer of [duplicate_fixer.py],
      [Pandas] models [groupby], [FixerMain] and [FinderMain] embed the two
      [main] functions.
    - [Spec] and [SpecMore] hold the vocabulary the properties are stated
      in, [Scenario] and [ScenarioMore] the concrete tables, files, frames
      and groups they are tried on.
    - [PyFacts], [FinderFacts], [FixerFacts], [FetchFacts] and [CsvFacts]
      hold the proofs about detection, the artifact, the fetch and the
      resolution of one group; [ShapelyFacts], [DetectFacts], [FetchMore],
      [MainFacts] and [ResolveFacts] those about the geometry sanitizer, the
      progress notes, the queries sent, the two [main] functions and the
      resolution of a whole frame.

    Python [str] is modelled by [string] (one [ascii] per character), Python
    [int] by [Z], finite floats by [Q]. Logging is kept: the state of each
    loop holds what the loop logged. *)

From Stdlib Require Import List String Ascii Bool Arith NArith ZArith QArith Lia.
From Stdlib Require Import Permutation DecimalString DecimalPos.
From Stdlib Require Decimal DecimalFacts.
From Stdlib Require Orders Sorted Mergesort.
Import ListNotations.

#[local] Open Scope string_scope.
#[local] Open Scope list_scope.
#[local] Open Scope Z_scope.

(* ===================================================================== *)
(** * Python runtime model                                                 *)
(* ===================================================================== *)

Module Py.

(** Exceptions the modelled code can raise. [Unmodelled] is no exception
    of Python: it marks a query text outside the fragment of the query
    language modelled in [Pg], about which nothing is said. *)
Inductive exn : Type :=
| IndexError
| ValueError
| TypeError
| AttributeError
| FileNotFoundError
| CsvError
| Unmodelled.

Inductive result (A : Type) : Type :=
| Ok (a : A)
| Raise (e : exn).
Arguments Ok {A} a.
Arguments Raise {A} e.

Definition bind {A B} (m : result A) (k : A -> result B) : result B :=
  match m with
  | Ok a => k a
  | Raise e => Raise e
  end.

Declare Scope py_scope.
Delimit Scope py_scope with py.
Notation "x <- m ;; k" := (bind m (fun x => k))
  (at level 61, m at next level, right associativity) : py_scope.

(** ** Characters *)

Definition LF : ascii := "010"%char.
Definition CR : ascii := "013"%char.
Definition COMMA : ascii := ","%char.
Definition DQUOTE : ascii := "034"%char.
Definition SQUOTE : ascii := "'"%char.

Definition chr (c : ascii) : string := String c "".

(** [c in s] on strings. *)
Fixpoint str_mem (c : ascii) (s : string) : bool :=
  match s with
  | "" => false
  | String c' s' => Ascii.eqb c' c || str_mem c s'
  end.

(** [s.startswith(c)] for a single character. *)
Definition starts_with (c : ascii) (s : string) : bool :=
  match s with
  | "" => false
  | String c' _ => Ascii.eqb c' c
  end.

(** ** [dict]: insertion-ordered association list

    A Python [dict] iterates in insertion order, and [find_duplicates]
    depends on that order, so the mapping is an association list: assigning
    to an existing key keeps the key's position, assigning to a new key
    appends it. *)

Definition dict (V : Type) : Type := list (string * V).

Fixpoint dict_get {V} (d : dict V) (k : string) (default : V) : V :=
  match d with
  | [] => default
  | (k', v) :: d' => if String.eqb k' k then v else dict_get d' k default
  end.

Fixpoint dict_set {V} (d : dict V) (k : string) (v : V) : dict V :=
  match d with
  | [] => [(k, v)]
  | (k', v') :: d' =>
      if String.eqb k' k then (k', v) :: d' else (k', v') :: dict_set d' k v
  end.

Definition dict_items {V} (d : dict V) : list (string * V) := d.
Definition dict_keys {V} (d : dict V) : list string := map fst d.
Definition dict_values {V} (d : dict V) : list V := map snd d.

(** [sum(xs)] *)
Definition sum (xs : list Z) : Z := fold_right Z.add 0 xs.

(** ** [str(int)] and [int(str)]

    Both directions refuse more than [int_max_str_digits] decimal digits
    (the interpreter's default limit). *)

Definition int_max_str_digits : Z := 4300.

Definition decimal_of_int (z : Z) : string := NilZero.string_of_int (Z.to_int z).

Definition count_digits (s : string) : Z :=
  match s with
  | String "-" r => Z.of_nat (String.length r)
  | _ => Z.of_nat (String.length s)
  end.

Definition str_of_int (z : Z) : result string :=
  let s := decimal_of_int z in
  if int_max_str_digits <? count_digits s then Raise ValueError else Ok s.

Definition is_space (c : ascii) : bool :=
  match c with
  | " "%char | "009"%char | "010"%char | "011"%char | "012"%char | "013"%char
  | "028"%char | "029"%char | "030"%char | "031"%char | "133"%char | "160"%char => true
  | _ => false
  end.

Definition is_digit (c : ascii) : bool :=
  match c with
  | "0"%char | "1"%char | "2"%char | "3"%char | "4"%char
  | "5"%char | "6"%char | "7"%char | "8"%char | "9"%char => true
  | _ => false
  end.

Fixpoint lstrip (s : string) : string :=
  match s with
  | "" => ""
  | String c r => if is_space c then lstrip r else s
  end.

Fixpoint rstrip (s : string) : string :=
  match s with
  | "" => ""
  | String c r =>
      match rstrip r with
      | "" => if is_space c then "" else chr c
      | r' => String c r'
      end
  end.

Definition strip (s : string) : string := rstrip (lstrip s).

(** Digits of an integer literal with its underscores removed; an
    underscore is accepted only between two digits. [prev] tells whether the
    previous character was a digit. *)
Fixpoint literal_digits (prev : bool) (s : string) : option string :=
  match s with
  | "" => if prev then Some "" else None
  | String c r =>
      if Ascii.eqb c "_" then
        if prev then literal_digits false r else None
      else if is_digit c then option_map (String c) (literal_digits true r)
      else None
  end.

(** [int(s)] for a [str] argument, base 10. *)
Definition int_of_str (s : string) : result Z :=
  let t := strip s in
  let '(negative, body) :=
    match t with
    | String "-" r => (true, r)
    | String "+" r => (false, r)
    | _ => (false, t)
    end in
  match body with
  | "" => Raise ValueError
  | String c _ =>
      if negb (is_digit c) then Raise ValueError else
      match literal_digits true body with
      | None => Raise ValueError
      | Some digits =>
          if int_max_str_digits <? Z.of_nat (String.length digits) then Raise ValueError
          else match NilEmpty.uint_of_string digits with
               | None => Raise ValueError
               | Some d =>
                   let n := Z.of_N (N.of_uint d) in
                   Ok (if negative then - n else n)
               end
      end
  end.

(** ** [itertools.batched(iterable, n)]

    Successive chunks of [n] items, the last one possibly shorter; [n < 1]
    raises [ValueError]. Every chunk of a non-empty rest consumes at least
    one item, so as many rounds as there are items are enough. *)

Fixpoint batched_rounds {A} (rounds n : nat) (l : list A) : list (list A) :=
  match rounds with
  | O => []
  | S rounds' =>
      match l with
      | [] => []
      | _ :: _ => firstn n l :: batched_rounds rounds' n (skipn n l)
      end
  end.

Definition batched {A} (l : list A) (n : nat) : result (list (list A)) :=
  match n with
  | O => Raise ValueError
  | S _ => Ok (batched_rounds (List.length l) n l)
  end.

(** ** Text files

    The file system maps a file name to its text. Files are opened in text
    mode with the default [newline=None]: on reading, CR LF and a lone CR
    become LF; on writing, LF becomes the platform line separator, which is
    LF here. *)

Definition filesystem : Type := string -> option string.

Definition fs_write (fs : filesystem) (name content : string) : filesystem :=
  fun n => if String.eqb n name then Some content else fs n.

Fixpoint universal_newlines (s : string) : string :=
  match s with
  | "" => ""
  | String c r =>
      if Ascii.eqb c CR then
        match r with
        | String c' r' =>
            if Ascii.eqb c' LF then String LF (universal_newlines r')
            else String LF (universal_newlines r)
        | "" => chr LF
        end
      else String c (universal_newlines r)
  end.

(** Iterating a text file yields its lines, each with its LF kept; a
    last line without one is yielded too. [cur] is the line being read. *)
Fixpoint lines_from (cur s : string) : list string :=
  match s with
  | "" => match cur with "" => [] | _ => [cur] end
  | String c r =>
      if Ascii.eqb c LF then (cur ++ chr LF)%string :: lines_from "" r
      else lines_from (cur ++ chr c)%string r
  end.

Definition file_lines (fs : filesystem) (name : string) : result (list string) :=
  match fs name with
  | None => Raise FileNotFoundError
  | Some content => Ok (lines_from "" (universal_newlines content))
  end.

(** ** [csv.reader], default ([excel]) dialect

    The character automaton of the reader with the comma as delimiter, the
    double quote as quote character, [doublequote=True], [escapechar=None],
    [skipinitialspace=False] and [strict=False]. The three escape states
    need an escape character and are left out. *)

Inductive parser_state : Type :=
| START_RECORD
| START_FIELD
| IN_FIELD
| IN_QUOTED_FIELD
| QUOTE_IN_QUOTED_FIELD
| EAT_CRNL.

Definition parser_state_eqb (a b : parser_state) : bool :=
  match a, b with
  | START_RECORD, START_RECORD | START_FIELD, START_FIELD
  | IN_FIELD, IN_FIELD | IN_QUOTED_FIELD, IN_QUOTED_FIELD
  | QUOTE_IN_QUOTED_FIELD, QUOTE_IN_QUOTED_FIELD | EAT_CRNL, EAT_CRNL => true
  | _, _ => false
  end.

Record reader : Type := mk_reader {
  state : parser_state;
  fields : list string;   (* fields of the record read so far *)
  field : string          (* characters of the field being read *)
}.

(** A character of the line, or the end-of-line mark fed after each line. *)
Inductive input : Type :=
| Chr (c : ascii)
| EOL.

Definition field_limit : Z := 131072.

Definition parse_reset : reader := mk_reader START_RECORD [] "".

Definition set_state (r : reader) (s : parser_state) : reader :=
  mk_reader s (fields r) (field r).

Definition parse_save_field (r : reader) : reader :=
  mk_reader (state r) (fields r ++ [field r]) "".

Definition parse_add_char (r : reader) (c : ascii) : result reader :=
  if field_limit <=? Z.of_nat (String.length (field r)) then Raise CsvError
  else Ok (mk_reader (state r) (fields r) (field r ++ chr c)%string).

Definition is_newline (i : input) : bool :=
  match i with
  | Chr c => Ascii.eqb c LF || Ascii.eqb c CR
  | EOL => false
  end.

Definition is_chr (i : input) (c : ascii) : bool :=
  match i with
  | Chr c' => Ascii.eqb c' c
  | EOL => false
  end.

Definition after_line_end (i : input) : parser_state :=
  match i with
  | EOL => START_RECORD
  | Chr _ => EAT_CRNL
  end.

(** The [START_FIELD] case, which [START_RECORD] falls through to. *)
Definition start_field (r : reader) (i : input) : result reader :=
  match i with
  | EOL => Ok (set_state (parse_save_field r) START_RECORD)
  | Chr c =>
      if is_newline i then Ok (set_state (parse_save_field r) EAT_CRNL)
      else if Ascii.eqb c DQUOTE then Ok (set_state r IN_QUOTED_FIELD)
      else if Ascii.eqb c COMMA then Ok (parse_save_field r)
      else (r' <- parse_add_char r c ;; Ok (set_state r' IN_FIELD))%py
  end.

Definition parse_process_char (r : reader) (i : input) : result reader :=
  match state r with
  | START_RECORD =>
      match i with
      | EOL => Ok r
      | Chr _ =>
          if is_newline i then Ok (set_state r EAT_CRNL)
          else start_field (set_state r START_FIELD) i
      end
  | START_FIELD => start_field r i
  | IN_FIELD =>
      match i with
      | EOL => Ok (set_state (parse_save_field r) START_RECORD)
      | Chr c =>
          if is_newline i then Ok (set_state (parse_save_field r) EAT_CRNL)
          else if Ascii.eqb c COMMA then Ok (set_state (parse_save_field r) START_FIELD)
          else parse_add_char r c
      end
  | IN_QUOTED_FIELD =>
      match i with
      | EOL => Ok r
      | Chr c =>
          if Ascii.eqb c DQUOTE then Ok (set_state r QUOTE_IN_QUOTED_FIELD)
          else parse_add_char r c
      end
  | QUOTE_IN_QUOTED_FIELD =>
      match i with
      | EOL => Ok (set_state (parse_save_field r) START_RECORD)
      | Chr c =>
          if Ascii.eqb c DQUOTE then
            (r' <- parse_add_char r c ;; Ok (set_state r' IN_QUOTED_FIELD))%py
          else if Ascii.eqb c COMMA then Ok (set_state (parse_save_field r) START_FIELD)
          else if is_newline i then Ok (set_state (parse_save_field r) EAT_CRNL)
          else (r' <- parse_add_char r c ;; Ok (set_state r' IN_FIELD))%py
      end
  | EAT_CRNL =>
      match i with
      | EOL => Ok (set_state r START_RECORD)
      | Chr _ => if is_newline i then Ok r else Raise CsvError
      end
  end.

(** Feed the characters of one line. *)
Fixpoint parse_chars (r : reader) (line : string) : result reader :=
  match line with
  | "" => Ok r
  | String c rest => (r' <- parse_process_char r (Chr c) ;; parse_chars r' rest)%py
  end.

(** One round of the reader's loop: a whole line, then the end-of-line mark. *)
Definition parse_line (r : reader) (line : string) : result reader :=
  (r' <- parse_chars r line ;; parse_process_char r' EOL)%py.

(** [for row in csv.reader(f): acc = body(acc, row)] over the lines of [f].
    Each call of the reader starts from [parse_reset] and reads lines until
    the automaton is back in [START_RECORD]; when the lines run out inside a
    record, the pending field is saved and the record is yielded. *)
Fixpoint for_each_row {S} (body : S -> list string -> result S)
    (r : reader) (lines : list string) (acc : S) : result S :=
  match lines with
  | [] =>
      if (0 <? Z.of_nat (String.length (field r)))
         || parser_state_eqb (state r) IN_QUOTED_FIELD
      then body acc (fields (parse_save_field r))
      else Ok acc
  | line :: rest =>
      (r' <- parse_line r line ;;
       match state r' with
       | START_RECORD => acc' <- body acc (fields r') ;; for_each_row body parse_reset rest acc'
       | _ => for_each_row body r' rest acc
       end)%py
  end.

(** [x[i]] on a list. *)
Definition getitem {A} (l : list A) (i : nat) : result A :=
  match nth_error l i with
  | Some a => Ok a
  | None => Raise IndexError
  end.

(** [l.index(x)] on a list of strings. *)
Fixpoint list_index (x : string) (l : list string) : result nat :=
  match l with
  | [] => Raise ValueError
  | y :: l' => if String.eqb y x then Ok O else (i <- list_index x l' ;; Ok (S i))%py
  end.

(** ** Calls

    A call of a function whose parameters are positional and have no
    default binds the arguments to the parameters in order; it raises
    [TypeError] when there are too few or too many of them. *)
Fixpoint bind_positional {A : Type} (params : list string) (args : list A)
    : result (list (string * A)) :=
  match params, args with
  | [], [] => Ok []
  | p :: params', a :: args' =>
      (rest <- bind_positional params' args' ;; Ok ((p, a) :: rest))%py
  | _, _ => Raise TypeError
  end.

End Py.

(* ===================================================================== *)
(** * The data source                                                      *)
(* ===================================================================== *)

Module Pg.
Import Py.

(** A row of [national_dataset]: its [hex_id], its encoded geometry and the
    remaining column values. *)
Record db_row : Type := mk_row {
  row_hex_id : string;
  row_geom : string;
  row_attrs : list string
}.

(** A connection: the column names a cursor reports in [description] and the
    rows of the table in scan order. *)
Record connection : Type := mk_connection {
  description : list string;
  national_dataset : list db_row
}.

(** [SELECT hex_id FROM national_dataset]: one [hex_id] per row. *)
Definition scan_hex_ids (conn : connection) : list string :=
  map row_hex_id (national_dataset conn).

(** The server reads the text of a query. The fragment modelled is the one
    query shape the fetcher sends for ids without a quote: the text after
    [IN (] is a comma-separated list of string constants closed by a
    parenthesis; inside a constant a quote is written twice. A server reads
    more than this (blanks, comments, other operators): a text outside the
    fragment gets no answer here. *)
Inductive lexer_state : Type :=
| ExpectConstant                (* at the start of a list item *)
| InConstant (acc : string)     (* inside the quotes *)
| QuoteSeen (acc : string)      (* a quote inside a constant: doubled, or the end *)
| Closed.                       (* after the closing parenthesis *)

Fixpoint in_list (st : lexer_state) (consts : list string) (s : string)
    : option (list string) :=
  match s with
  | "" => match st with Closed => Some consts | _ => None end
  | String c rest =>
      match st with
      | ExpectConstant =>
          if Ascii.eqb c SQUOTE then in_list (InConstant "") consts rest else None
      | InConstant acc =>
          if Ascii.eqb c SQUOTE then in_list (QuoteSeen acc) consts rest
          else in_list (InConstant (acc ++ chr c)%string) consts rest
      | QuoteSeen acc =>
          if Ascii.eqb c SQUOTE then in_list (InConstant (acc ++ chr SQUOTE)%string) consts rest
          else if Ascii.eqb c COMMA then in_list ExpectConstant (consts ++ [acc]) rest
          else if Ascii.eqb c ")" then in_list Closed (consts ++ [acc]) rest
          else None
      | Closed => None
      end
  end.

Fixpoint strip_prefix (p s : string) : option string :=
  match p with
  | "" => Some s
  | String a p' =>
      match s with
      | "" => None
      | String b s' => if Ascii.eqb a b then strip_prefix p' s' else None
      end
  end.

Definition select_in : string := "SELECT * FROM national_dataset WHERE hex_id IN (".

(** [hex_id IN (c1, ..., cn)] *)
Definition hex_id_in (consts : list string) (r : db_row) : bool :=
  existsb (String.eqb (row_hex_id r)) consts.

(** [cursor.execute(query)] followed by iterating the cursor, for a text of
    the fragment. *)
Definition execute (conn : connection) (query : string) : result (list db_row) :=
  match strip_prefix select_in query with
  | None => Raise Unmodelled
  | Some items =>
      match in_list ExpectConstant [] items with
      | None => Raise Unmodelled
      | Some consts => Ok (filter (hex_id_in consts) (national_dataset conn))
      end
  end.

End Pg.

(* ===================================================================== *)
(** * duplicate_finder.py                                                  *)
(* ===================================================================== *)

Module Finder.
Import Py Pg.

Definition HEX_ID_BATCH_SIZE : Z := 100000.
Definition ROWS_BATCH_SIZE : Z := 10000.

(** What [logger.info] is called with. *)
Inductive log_record : Type :=
| Got (count : Z)                    (* 'Got %d' *)
| GotDuplicates (n : Z)              (* 'Got %d duplicates' *)
| GotOf (count total_count : Z).     (* 'Got %d/%d' *)

(** ** get_hex_ids *)

Record scan_state : Type := mk_scan {
  hex_id_count : dict Z;
  scan_count : Z;
  scan_log : list log_record
}.

(** [hex_id_count[hex_id] = hex_id_count.get(hex_id, 0) + 1] *)
Definition count_id (d : dict Z) (hex_id : string) : dict Z :=
  dict_set d hex_id (dict_get d hex_id 0 + 1).

(** The body of [for record in cursor]. *)
Definition scan_record (st : scan_state) (hex_id : string) : scan_state :=
  let hex_id_count' := count_id (hex_id_count st) hex_id in
  let count := scan_count st + 1 in
  mk_scan hex_id_count' count
    (if count mod HEX_ID_BATCH_SIZE =? 0 then scan_log st ++ [Got count]
     else scan_log st).

Definition get_hex_ids_run (conn : connection) : scan_state :=
  fold_left scan_record (scan_hex_ids conn) (mk_scan [] 0 []).

Definition get_hex_ids (conn : connection) : dict Z :=
  hex_id_count (get_hex_ids_run conn).

(** ** find_duplicates *)

Record dup_state : Type := mk_dup {
  duplicates : list (string * Z);
  duplicates_found : Z;
  dup_log : list log_record
}.

(** The body of [for hex_id, count in hex_id_count.items()]. *)
Definition visit_item (st : dup_state) (item : string * Z) : dup_state :=
  let '(hex_id, count) := item in
  if 1 <? count then
    let found := duplicates_found st + 1 in
    mk_dup (duplicates st ++ [(hex_id, count)]) found
      (if found mod HEX_ID_BATCH_SIZE =? 0 then dup_log st ++ [GotDuplicates count]
       else dup_log st)
  else st.

Definition find_duplicates_run (hex_id_count : dict Z) : dup_state :=
  fold_left visit_item (dict_items hex_id_count) (mk_dup [] 0 []).

Definition find_duplicates (hex_id_count : dict Z) : list (string * Z) :=
  duplicates (find_duplicates_run hex_id_count).

(** ** write_pairs_csv, read_pairs_csv *)

(** ['{0},{1}\n'.format(a, b)] for each item, in order. *)
Fixpoint format_pairs (items : list (string * Z)) : result string :=
  match items with
  | [] => Ok ""
  | (a, b) :: rest =>
      (sb <- str_of_int b ;;
       text <- format_pairs rest ;;
       Ok (a ++ chr COMMA ++ sb ++ chr LF ++ text)%string)%py
  end.

Definition write_pairs_csv (fs : filesystem) (filename : string)
    (items : list (string * Z)) : result filesystem :=
  (text <- format_pairs items ;; Ok (fs_write fs filename text))%py.

(** The body of [for row in reader]. *)
Definition read_pair (pairs : list (string * Z)) (row : list string)
    : result (list (string * Z)) :=
  (a <- getitem row 0 ;;
   cell <- getitem row 1 ;;
   b <- int_of_str cell ;;
   Ok (pairs ++ [(a, b)]))%py.

Definition read_pairs_csv (fs : filesystem) (filename : string)
    : result (list (string * Z)) :=
  (lines <- file_lines fs filename ;; for_each_row read_pair parse_reset lines [])%py.

(** ** get_rows_by_hex_id *)

Record fetch_state : Type := mk_fetch {
  rows : list db_row;
  colnames : option (list string);
  fetch_count : Z;
  fetch_log : list log_record;
  executed : list string     (* the queries sent so far *)
}.

(** The query text built for one batch. *)
Definition build_query (batch : list string) : string :=
  let batch_ids := ("'" ++ String.concat "','" batch ++ "'")%string in
  (select_in ++ batch_ids ++ ")")%string.

(** The body of [for record in cursor]. *)
Definition take_record (batch_size total_count : Z) (st : fetch_state)
    (record : db_row) : fetch_state :=
  let count := fetch_count st + 1 in
  mk_fetch (rows st ++ [record]) (colnames st) count
    (if count mod batch_size =? 0 then fetch_log st ++ [GotOf count total_count]
     else fetch_log st)
    (executed st).

(** [if colnames is None: colnames = [desc[0] for desc in cursor.description]] *)
Definition names_after (conn : connection) (st : fetch_state) : option (list string) :=
  match colnames st with
  | None => Some (description conn)
  | Some names => Some names
  end.

(** The body of [for batch in itertools.batched(...)]. *)
Definition fetch_batch (conn : connection) (batch_size total_count : Z)
    (st : fetch_state) (batch : list string) : result fetch_state :=
  let query := build_query batch in
  (records <- execute conn query ;;
   Ok (fold_left (take_record batch_size total_count) records
         (mk_fetch (rows st) (names_after conn st) (fetch_count st) (fetch_log st)
                   (executed st ++ [query]))))%py.

Fixpoint fetch_batches (conn : connection) (batch_size total_count : Z)
    (st : fetch_state) (batches : list (list string)) : result fetch_state :=
  match batches with
  | [] => Ok st
  | batch :: rest =>
      (st' <- fetch_batch conn batch_size total_count st batch ;;
       fetch_batches conn batch_size total_count st' rest)%py
  end.

(** [get_rows_by_hex_id] with the batch size as a parameter; the final state
    keeps the log and the queries sent next to the two returned values. *)
Definition get_rows_run (batch_size : Z) (conn : connection) (hex_ids : list string)
    : result fetch_state :=
  let total_count := Z.of_nat (List.length hex_ids) in
  (batches <- batched hex_ids (Z.to_nat batch_size) ;;
   fetch_batches conn batch_size total_count (mk_fetch [] None 0 [] []) batches)%py.

Definition get_rows_by_hex_id_sized (batch_size : Z) (conn : connection)
    (hex_ids : list string) : result (option (list string) * list db_row) :=
  (st <- get_rows_run batch_size conn hex_ids ;; Ok (colnames st, rows st))%py.

Definition get_rows_by_hex_id (conn : connection) (hex_ids : list string)
    : result (option (list string) * list db_row) :=
  get_rows_by_hex_id_sized ROWS_BATCH_SIZE conn hex_ids.

(** ** main, from the fetch to the lookup of the geometry column *)

Definition main_fetch (conn : connection) (duplicates : list (string * Z))
    : result (nat * list db_row) :=
  let hex_ids := map fst duplicates in
  (fetched <- get_rows_by_hex_id conn hex_ids ;;
   let '(column_names, rows) := fetched in
   geom_idx <- match column_names with
               | None => Raise AttributeError
               | Some names => list_index "geom" names
               end ;;
   Ok (geom_idx, rows))%py.

End Finder.

(* ===================================================================== *)
(** * duplicate_fixer.py                                                   *)
(* ===================================================================== *)

Module Fixer.
Import Py.

(** The value of a row's [evi] attribute: [None], a NaN, or a finite float. *)
Inductive evi_value : Type :=
| EviNone
| EviNaN
| EviNum (q : Q).

(** [bool(x)]: [None] and zero are false, every other float (a NaN too) is
    true. *)
Definition truthy (e : evi_value) : bool :=
  match e with
  | EviNone => false
  | EviNaN => true
  | EviNum q => negb (Qeq_bool q 0)
  end.

(** [a > b] on finite floats. *)
Definition Qgtb (a b : Q) : bool := negb (Qle_bool a b).

(** What [logger.info] is called with:
    'Null value for evi with hex id %s, idx %d'. *)
Inductive log_record : Type :=
| NullEvi (hex_id : string) (idx : Z).

Section Resolver.

(** The geometry library and the cell index are outside the repository: a
    type of geometries, the area of one, the boundary of a cell as
    (latitude, longitude) pairs, the polygon over a ring of coordinates and
    the reprojection to the working system. *)
Variable Geometry : Type.
Variable area : Geometry -> Q.
Variable h3_to_geo_boundary : string -> list (Q * Q).
Variable Polygon : list (Q * Q) -> Geometry.
Variable transform_project : Geometry -> Geometry.

Definition cell_to_shapely (cell : string) : Geometry :=
  let coords := h3_to_geo_boundary cell in
  let flipped := map (fun coord => (snd coord, fst coord)) coords in
  Polygon flipped.

(** A row of the duplicates frame. *)
Record row : Type := mk_row {
  hex_id : string;
  evi : evi_value;
  attrs : list (string * string);   (* the remaining columns *)
  geometry : Geometry
}.

(** [row = r.copy(); row.geometry = g] *)
Definition with_geometry (r : row) (g : Geometry) : row :=
  mk_row (hex_id r) (evi r) (attrs r) g.

Record best : Type := mk_best {
  largest_area_row : row;
  largest_area : Q;
  log : list log_record
}.

(** The body of [for idx in range(0, len(rows))]. *)
Definition visit (group_id : string) (st : best) (idx : Z) (other : row) : best :=
  if negb (truthy (evi other)) then
    mk_best (largest_area_row st) (largest_area st) (log st ++ [NullEvi group_id idx])
  else
    let other_area := area (geometry other) in
    if Qgtb other_area (largest_area st) then mk_best other other_area (log st)
    else st.

Fixpoint scan (group_id : string) (st : best) (idx : Z) (rows : list row) : best :=
  match rows with
  | [] => st
  | other :: rest => scan group_id (visit group_id st idx other) (idx + 1) rest
  end.

(** [transform(project, cell_to_shapely(hex_id))]: the boundary polygon of
    a cell, reprojected. *)
Definition hex_geom (cell : string) : Geometry :=
  transform_project (cell_to_shapely cell).

Definition deduplicate (rows : list row) : result (row * list log_record) :=
  match rows with
  | [] => Raise IndexError
  | [only] => Ok (only, [])
  | first :: _ =>
      let group_id := hex_id first in
      let st := scan group_id (mk_best first (area (geometry first)) []) 0 rows in
      Ok (with_geometry (largest_area_row st) (hex_geom group_id), log st)
  end.

End Resolver.

Arguments mk_row {Geometry}.
Arguments hex_id {Geometry}.
Arguments evi {Geometry}.
Arguments attrs {Geometry}.
Arguments geometry {Geometry}.
Arguments with_geometry {Geometry}.
Arguments cell_to_shapely {Geometry}.
Arguments hex_geom {Geometry}.
Arguments deduplicate {Geometry}.

End Fixer.


(* ===================================================================== *)
(** * duplicate_fixer.py: the geometry sanitizer                           *)
(* ===================================================================== *)

Module Shapely.

(** The geometry types that are neither polygonal nor a collection. *)
Inductive other_type : Type :=
| Point
| LineString
| LinearRing
| MultiPoint
| MultiLineString.

(** A geometry as the sanitizer sees it: its [geom_type], for a polygon its
    rings (an empty polygon has no shell), for a multi-part geometry its
    [geoms]. *)
#[local] Unset Elimination Schemes.
Inductive geom : Type :=
| Polygon (shell : list (Q * Q)) (holes : list (list (Q * Q)))
| MultiPolygon (geoms : list geom)
| GeometryCollection (geoms : list geom)
| Other (geom_type : other_type).
#[local] Set Elimination Schemes.

(** [geom.is_empty] for a polygon. *)
Definition is_empty (shell : list (Q * Q)) : bool :=
  match shell with
  | [] => true
  | _ :: _ => false
  end.

(** [append_polys(geom, geom_list)]; the list it appends to is returned. *)
Fixpoint append_polys (g : geom) (geom_list : list geom) : list geom :=
  match g with
  | Polygon shell _ => if negb (is_empty shell) then geom_list ++ [g] else geom_list
  | MultiPolygon geoms | GeometryCollection geoms =>
      fold_left (fun acc part => append_polys part acc) geoms geom_list
  | Other _ => geom_list
  end.

Definition keep_only (g : geom) : geom :=
  match g with
  | GeometryCollection _ => MultiPolygon (append_polys g [])
  | Other _ => Polygon [] []
  | Polygon _ _ | MultiPolygon _ => g
  end.

End Shapely.

(* ===================================================================== *)
(** * The data frame library                                               *)
(* ===================================================================== *)

Module Pandas.

(** The distinct keys in the order they are met; [seen] holds the keys met
    so far. *)
Fixpoint unique_from (seen keys : list string) : list string :=
  match keys with
  | [] => []
  | k :: rest =>
      if existsb (String.eqb k) seen then unique_from seen rest
      else k :: unique_from (k :: seen) rest
  end.

Definition unique (keys : list string) : list string := unique_from [] keys.

(** Strings ordered as Python orders them: character by character. *)
Module StringOrder <: Orders.TotalLeBool.
Definition t : Type := string.
Definition leb : string -> string -> bool := String.leb.
Definition leb_total : forall x y : string, leb x y = true \/ leb y x = true :=
  String.leb_total.
End StringOrder.

Module StringSort := Mergesort.Sort StringOrder.

Section GroupBy.
Context {R : Type} (key : R -> string).

(** The keys of [frame.groupby(column)]: distinct, in ascending order. *)
Definition group_keys (frame : list R) : list string :=
  StringSort.sort (unique (map key frame)).

(** [frame.groupby(column)], iterated: each key in ascending order with the
    rows that bear it, those in frame order. *)
Definition groupby (frame : list R) : list (string * list R) :=
  map (fun k => (k, filter (fun r => String.eqb (key r) k) frame)) (group_keys frame).

End GroupBy.

End Pandas.

(* ===================================================================== *)
(** * duplicate_fixer.py: main                                             *)
(* ===================================================================== *)

Module FixerMain.
Import Py Fixer.

Section Main.
Variable Geometry : Type.
Variable area : Geometry -> Q.
Variable h3_to_geo_boundary : string -> list (Q * Q).
Variable Polygon : list (Q * Q) -> Geometry.
Variable transform_project : Geometry -> Geometry.

(** [for a, b in gdf.groupby('hex_id'): rows.append(deduplicate(b))] *)
Fixpoint resolve_groups (groups : list (string * list (row Geometry)))
    (rows : list (row Geometry)) (notes : list log_record)
    : result (list (row Geometry) * list log_record) :=
  match groups with
  | [] => Ok (rows, notes)
  | (a, b) :: rest =>
      (resolved <- deduplicate area h3_to_geo_boundary Polygon transform_project b ;;
       resolve_groups rest (rows ++ [fst resolved]) (notes ++ snd resolved))%py
  end.

(** [main], from the frame read from [duplicates.gpkg] to the rows of the
    frame written to [deduplicated.gpkg], with what was logged. *)
Definition main (gdf : list (row Geometry))
    : result (list (row Geometry) * list log_record) :=
  resolve_groups (Pandas.groupby hex_id gdf) [] [].

End Main.

Arguments resolve_groups {Geometry}.
Arguments main {Geometry}.

End FixerMain.

(* ===================================================================== *)
(** * duplicate_finder.py: main                                            *)
(* ===================================================================== *)

Module FinderMain.
Import Py Pg Finder.

(** What [main] passes to [write_pairs_csv]: a file name or the items of
    a mapping. *)
Inductive argument : Type :=
| ArgStr (s : string)
| ArgItems (items : list (string * Z)).

(** A call [write_pairs_csv(...)] with positional arguments. The parameters
    are [filename] and [items]. Once they are bound, [open] raises
    [TypeError] on a [filename] that is no path; a string given as [items]
    is iterated by character, and a character does not unpack into a pair. *)
Definition call_write_pairs_csv (fs : filesystem) (args : list argument)
    : result filesystem :=
  (bound <- bind_positional ["filename"; "items"] args ;;
   match map snd bound with
   | [ArgStr filename; ArgItems items] => write_pairs_csv fs filename items
   | [ArgStr filename; ArgStr ""] => Ok (fs_write fs filename "")
   | [ArgStr filename; ArgStr _] => Raise ValueError
   | _ => Raise TypeError
   end)%py.

(** How [main] can stop early. *)
Inductive failure : Type :=
| Raised (e : exn)          (* an exception of the functions above *)
| SystemExit (code : Z).    (* [sys.exit(code)] *)

Inductive outcome : Type :=
| Fetched (geom_idx : nat) (rows : list db_row)
| Failed (f : failure).

Definition of_result (r : result (nat * list db_row)) : outcome :=
  match r with
  | Ok (geom_idx, rows) => Fetched geom_idx rows
  | Raise e => Failed (Raised e)
  end.

(** [main], up to the lookup of the geometry column. [connect] is what
    [psycopg.connect] gives, nothing when it raises; [cached] is
    [args.read_cached_duplicates]. Without the flag the counts are written
    twice, by a call of [write_pairs_csv] with the items as its one argument
    and by a loop over them, then the duplicates are found and written. *)
Definition main (connect : option connection) (cached : bool) (fs : filesystem)
    : outcome :=
  match connect with
  | None => Failed (SystemExit 1)
  | Some conn =>
      if cached then
        match read_pairs_csv fs "duplicate_hex_ids.csv" with
        | Raise e => Failed (Raised e)
        | Ok duplicates => of_result (main_fetch conn duplicates)
        end
      else
        let hex_id_count := get_hex_ids conn in
        of_result
          (fs1 <- call_write_pairs_csv fs [ArgItems (dict_items hex_id_count)] ;;
           fs2 <- write_pairs_csv fs1 "hex_ids.csv" (dict_items hex_id_count) ;;
           let duplicates := find_duplicates hex_id_count in
           fs3 <- call_write_pairs_csv fs2
                    [ArgStr "duplicate_hex_ids.csv"; ArgItems duplicates] ;;
           main_fetch conn duplicates)%py
  end.

End FinderMain.
(* ===================================================================== *)
(** * Vocabulary of the specification                                      *)
(* ===================================================================== *)

Module Spec.

(** The distinct ids of a scan, in the order of their first occurrence. *)
Fixpoint first_occurrences (ids : list string) : list string :=
  match ids with
  | [] => []
  | id :: rest => id :: filter (fun x => negb (String.eqb x id)) (first_occurrences rest)
  end.

(** How often [id] occurs in a scan. *)
Definition occurrences (ids : list string) (id : string) : Z :=
  Z.of_nat (count_occ string_dec ids id).

(** [id] is one of [ids]. *)
Definition member (ids : list string) (id : string) : bool :=
  existsb (String.eqb id) ids.

(** The rows of the table whose [hex_id] is one of [ids], in table order. *)
Definition rows_with_id (conn : Pg.connection) (ids : list string) : list Pg.db_row :=
  filter (fun r => member ids (Pg.row_hex_id r)) (Pg.national_dataset conn).

(** No id holds a single quote. *)
Definition quote_free (ids : list string) : Prop :=
  forall id, In id ids -> Py.str_mem Py.SQUOTE id = false.

(** Every character of [s] passes [p]. *)
Fixpoint all_chars (p : ascii -> bool) (s : string) : bool :=
  match s with
  | "" => true
  | String c r => p c && all_chars p r
  end.

(** A token that fits on one line of the artifact as it is written: no
    comma, no line break, no opening double quote, and within the reader's
    field size. *)
Definition plain_token (tok : string) : Prop :=
  Py.str_mem Py.COMMA tok = false
  /\ Py.str_mem Py.LF tok = false
  /\ Py.str_mem Py.CR tok = false
  /\ Py.starts_with Py.DQUOTE tok = false
  /\ Z.of_nat (String.length tok) <= Py.field_limit.

(** A positive count within the digit limit of the integer conversions. *)
Definition plain_count (c : Z) : Prop :=
  0 < c /\ Z.of_nat (String.length (Py.decimal_of_int c)) <= Py.int_max_str_digits.

Definition plain_entry (entry : string * Z) : Prop :=
  plain_token (fst entry) /\ plain_count (snd entry).

(** The line of an entry and the text of the artifact. *)
Definition entry_line (entry : string * Z) : string :=
  (fst entry ++ Py.chr Py.COMMA ++ Py.decimal_of_int (snd entry) ++ Py.chr Py.LF)%string.

Fixpoint entries_text (entries : list (string * Z)) : string :=
  match entries with
  | [] => ""
  | entry :: rest => (entry_line entry ++ entries_text rest)%string
  end.

(** The attribute is present: a number. A missing value reaches the
    resolver as [None] or, in a numeric column of a frame read from a file,
    as a NaN; both are null. *)
Definition non_null (e : Fixer.evi_value) : bool :=
  match e with
  | Fixer.EviNum _ => true
  | Fixer.EviNone | Fixer.EviNaN => false
  end.

(** The attribute is a NaN. *)
Definition is_nan (e : Fixer.evi_value) : bool :=
  match e with
  | Fixer.EviNaN => true
  | _ => false
  end.

(** The attribute is a number equal to zero. *)
Definition is_zero (e : Fixer.evi_value) : bool :=
  match e with
  | Fixer.EviNum q => Qeq_bool q 0
  | _ => false
  end.

Section Selection.
Context {Geometry : Type} (area : Geometry -> Q).

(** Member [m], at position [i] of the group, is the first candidate whose
    stored-geometry area is the largest among the candidates. *)
Definition first_max (candidate : nat -> Fixer.row Geometry -> bool)
    (rows : list (Fixer.row Geometry)) (i : nat) (m : Fixer.row Geometry) : Prop :=
  nth_error rows i = Some m
  /\ candidate i m = true
  /\ (forall j mj, nth_error rows j = Some mj -> candidate j mj = true ->
                   (area (Fixer.geometry mj) <= area (Fixer.geometry m))%Q)
  /\ (forall j mj, (j < i)%nat -> nth_error rows j = Some mj -> candidate j mj = true ->
                   (area (Fixer.geometry mj) < area (Fixer.geometry m))%Q).

(** The candidates when only members bearing the attribute count. *)
Definition bearing_evi (i : nat) (m : Fixer.row Geometry) : bool :=
  non_null (Fixer.evi m).

(** The candidates when the first member counts whatever its attribute. *)
Definition first_or_bearing_evi (i : nat) (m : Fixer.row Geometry) : bool :=
  Nat.eqb i 0 || non_null (Fixer.evi m).

(** What holds of the candidate [st] after the members before position
    [n]: it is at some position [i], is itself a candidate, no candidate
    at position 0 or before [n] has a larger area, and every candidate
    before [i] has a smaller one. *)
Definition selected (rows : list (Fixer.row Geometry))
    (candidate : nat -> Fixer.row Geometry -> bool)
    (n : nat) (st : Fixer.best Geometry) : Prop :=
  let m := Fixer.largest_area_row Geometry st in
  Fixer.largest_area Geometry st = area (Fixer.geometry m)
  /\ exists i,
      nth_error rows i = Some m
      /\ candidate i m = true
      /\ (forall j mj, (j < n \/ j = 0)%nat -> nth_error rows j = Some mj ->
                       candidate j mj = true ->
                       (area (Fixer.geometry mj) <= area (Fixer.geometry m))%Q)
      /\ (forall j mj, (j < i)%nat -> nth_error rows j = Some mj ->
                       candidate j mj = true ->
                       (area (Fixer.geometry mj) < area (Fixer.geometry m))%Q).

End Selection.

End Spec.

(* ===================================================================== *)
(** * Scenarios                                                            *)
(* ===================================================================== *)

Module Scenario.
Import Py.

(** ** A table *)

Definition table_row (id : string) : Pg.db_row := Pg.mk_row id "" [].

(** The scan A, A, B, A, C, C. *)
Definition scan : Pg.connection :=
  Pg.mk_connection ["hex_id"; "geom"] (map table_row ["A"; "A"; "B"; "A"; "C"; "C"]).

(** A table with an id that holds quotes and a comma. *)
Definition quoted : Pg.connection :=
  Pg.mk_connection ["hex_id"; "geom"] (map table_row ["a"; "a','b"; "b"]).




(** The empty file system. *)
Definition no_files : filesystem := fun _ => None.

(** A duplicate-id file whose one line holds the id [a','b] as a field in
    double quotes, with the count 2. *)
Definition quoted_file : filesystem :=
  fs_write no_files "duplicate_hex_ids.csv"
    (String DQUOTE ("a','b" ++ String DQUOTE (",2" ++ chr LF))).

(** ** Geometries

    A free reading of the geometry library: a stored shape is known by its
    area, a polygon by its ring, a reprojected geometry by its source. *)
Inductive shape : Type :=
| Stored (a : Q)
| Ring (coords : list (Q * Q))
| Projected (g : shape).

Definition shape_area (g : shape) : Q :=
  match g with
  | Stored a => a
  | _ => 0
  end.

Definition boundary (cell : string) : list (Q * Q) := [(0, 0); (0, 1); (1, 0)]%Q.

Definition member (id : string) (e : Fixer.evi_value) (name : string) (a : Q)
    : Fixer.row shape :=
  Fixer.mk_row id e [("name", name)] (Stored a).

Definition resolve (rows : list (Fixer.row shape))
    : result (Fixer.row shape * list Fixer.log_record) :=
  Fixer.deduplicate shape_area boundary Ring Projected rows.

Definition cell_polygon (id : string) : shape :=
  Fixer.hex_geom boundary Ring Projected id.

(** Group C: the first member has no [evi] and the larger area. *)
Definition c1 : Fixer.row shape := member "C" Fixer.EviNone "member1" 50.
Definition c2 : Fixer.row shape := member "C" (Fixer.EviNum 0.7) "member2" 30.

(** Group D: the second and third members tie on the largest area. *)
Definition d1 : Fixer.row shape := member "D" (Fixer.EviNum 0.2) "member1" 10.
Definition d2 : Fixer.row shape := member "D" (Fixer.EviNum 0.5) "member2" 40.
Definition d3 : Fixer.row shape := member "D" (Fixer.EviNum 0.5) "member3" 40.

(** Group E: the second member has an [evi] of zero and the larger area. *)
Definition e1 : Fixer.row shape := member "E" (Fixer.EviNum 0.5) "member1" 10.
Definition e2 : Fixer.row shape := member "E" (Fixer.EviNum 0) "member2" 40.

(** Group N: both members have a null [evi], a NaN, and the second one the
    larger area. *)
Definition n1 : Fixer.row shape := member "N" Fixer.EviNaN "member1" 10.
Definition n2 : Fixer.row shape := member "N" Fixer.EviNaN "member2" 50.

(** Group S: a single member. *)
Definition s1 : Fixer.row shape := member "S" (Fixer.EviNum 0.7) "member1" 50.

End Scenario.


(* ===================================================================== *)
(** * Further vocabulary and scenarios                                     *)
(* ===================================================================== *)

Module SpecMore.
Import Py.

(** ** Geometries *)

(** A polygon that is not empty. *)
Definition solid_polygon (g : Shapely.geom) : bool :=
  match g with
  | Shapely.Polygon shell _ => negb (Shapely.is_empty shell)
  | _ => false
  end.

(** [p] is [g] or lies in [g] at some depth. *)
Inductive occurs (p : Shapely.geom) : Shapely.geom -> Prop :=
| occurs_here : occurs p p
| occurs_multi : forall part parts,
    In part parts -> occurs p part -> occurs p (Shapely.MultiPolygon parts)
| occurs_collection : forall part parts,
    In part parts -> occurs p part -> occurs p (Shapely.GeometryCollection parts).

(** A polygon or a multi-polygon. *)
Definition polygonal (g : Shapely.geom) : bool :=
  match g with
  | Shapely.Polygon _ _ | Shapely.MultiPolygon _ => true
  | _ => false
  end.

(** ** Progress notes *)

(** The multiples of [step] up to [n], as [1 * step, 2 * step, ...]. *)
Definition multiples (step : Z) (n : nat) : list Z :=
  map (fun k => step * Z.of_nat k) (seq 1 (Z.to_nat (Z.of_nat n / step))).

(** ** Resolution *)

(** The positions, from [idx] on, of the members whose [evi] is false as a
    truth value. *)
Fixpoint falsy_positions {Geometry} (idx : Z) (rows : list (Fixer.row Geometry))
    : list Z :=
  match rows with
  | [] => []
  | m :: rest =>
      if Fixer.truthy (Fixer.evi m) then falsy_positions (idx + 1) rest
      else idx :: falsy_positions (idx + 1) rest
  end.

(** The candidates of the resolution loop: the first member and the members
    whose [evi] is true as a truth value. *)
Definition first_or_truthy {Geometry} (i : nat) (m : Fixer.row Geometry) : bool :=
  Nat.eqb i 0 || Fixer.truthy (Fixer.evi m).

(** The rows of the frame that bear the id, in frame order, and how many
    they are. *)
Definition members {Geometry} (gdf : list (Fixer.row Geometry)) (id : string)
    : list (Fixer.row Geometry) :=
  filter (fun r => String.eqb (Fixer.hex_id r) id) gdf.

Definition bearing {Geometry} (gdf : list (Fixer.row Geometry)) (id : string) : nat :=
  List.length (members gdf id).

(** Row [r] resolves the group [b]: it is the lone member, or the first
    member of largest area among the first one and those whose [evi] is
    true, with the cell polygon of the first member's id. *)
Definition resolves {Geometry} (area : Geometry -> Q) (cell_geom : string -> Geometry)
    (b : list (Fixer.row Geometry)) (r : Fixer.row Geometry) : Prop :=
  match b with
  | [] => False
  | [only] => r = only
  | first :: _ =>
      exists i primary,
        Spec.first_max area first_or_truthy b i primary
        /\ r = Fixer.with_geometry primary (cell_geom (Fixer.hex_id first))
  end.

(** What the resolution of the group [b] logs. *)
Definition group_notes {Geometry} (b : list (Fixer.row Geometry))
    : list Fixer.log_record :=
  match b with
  | [] | [_] => []
  | first :: _ => map (Fixer.NullEvi (Fixer.hex_id first)) (falsy_positions 0 b)
  end.

(** Each string is below the next one. *)
Definition ascending (keys : list string) : Prop :=
  Sorted.Sorted (fun a b => String.ltb a b = true) keys.

End SpecMore.

Module ScenarioMore.
Import Py.

(** A collection holding a point, an empty polygon, a triangle and, one
    level down, a square next to a line. *)
Definition triangle : Shapely.geom :=
  Shapely.Polygon [(0, 0); (1, 0); (0, 1)]%Q [].
Definition square : Shapely.geom :=
  Shapely.Polygon [(0, 0); (1, 0); (1, 1); (0, 1)]%Q [].
Definition mixed : Shapely.geom :=
  Shapely.GeometryCollection
    [Shapely.Other Shapely.Point; Shapely.Polygon [] []; triangle;
     Shapely.GeometryCollection [square; Shapely.Other Shapely.LineString]].

(** A frame with the groups C and D of [Scenario] and a lone row S, in
    mixed order. *)
Definition frame : list (Fixer.row Scenario.shape) :=
  [Scenario.d1; Scenario.s1; Scenario.c1; Scenario.d2; Scenario.c2; Scenario.d3].

Definition run_main (gdf : list (Fixer.row Scenario.shape))
    : result (list (Fixer.row Scenario.shape) * list Fixer.log_record) :=
  FixerMain.main Scenario.shape_area Scenario.boundary Scenario.Ring Scenario.Projected gdf.

(** A duplicate-id file with the entries (A, 3) and (C, 2). *)
Definition cached_file : filesystem :=
  fs_write Scenario.no_files "duplicate_hex_ids.csv"
    (Spec.entries_text [("A", 3); ("C", 2)]).

(** The scan A, A, B, A, C, C in a table without a [geom] column. *)
Definition no_geom : Pg.connection :=
  Pg.mk_connection ["hex_id"] (Pg.national_dataset Scenario.scan).

End ScenarioMore.
(* ===================================================================== *)
(** * Facts about the runtime model                                        *)
(* ===================================================================== *)

Module PyFacts.
Import Py.

(** ** Strings *)

Lemma append_nil_r (s : string) : (s ++ "")%string = s.
Proof. induction s as [|c s IH]; simpl; [reflexivity | now rewrite IH]. Qed.

Lemma append_assoc (a b c : string) : ((a ++ b) ++ c)%string = (a ++ (b ++ c))%string.
Proof. induction a as [|x a IH]; simpl; [reflexivity | now rewrite IH]. Qed.

Lemma length_append (a b : string) :
  String.length (a ++ b) = (String.length a + String.length b)%nat.
Proof. induction a as [|x a IH]; simpl; [reflexivity | now rewrite IH]. Qed.

Lemma str_mem_append (c : ascii) (a b : string) :
  str_mem c (a ++ b) = str_mem c a || str_mem c b.
Proof.
  induction a as [|x a IH]; simpl; [reflexivity|].
  now rewrite IH, orb_assoc.
Qed.

(** ** dict *)

Section Dict.
Context {V : Type}.
Implicit Types (d : dict V) (k : string) (v : V).

Lemma dict_get_set d k v k' default :
  dict_get (dict_set d k v) k' default =
  if String.eqb k k' then v else dict_get d k' default.
Proof.
  induction d as [|[k0 v0] d IH]; simpl.
  - reflexivity.
  - destruct (String.eqb_spec k0 k) as [->|Hne]; simpl.
    + destruct (String.eqb_spec k k'); reflexivity.
    + rewrite IH.
      destruct (String.eqb_spec k0 k') as [->|]; [|reflexivity].
      destruct (String.eqb_spec k k'); [congruence | reflexivity].
Qed.

Lemma dict_get_absent d k default :
  ~ In k (dict_keys d) -> dict_get d k default = default.
Proof.
  induction d as [|[k0 v0] d IH]; simpl; intros Hk; [reflexivity|].
  destruct (String.eqb_spec k0 k) as [->|]; [tauto|].
  apply IH. tauto.
Qed.

Lemma dict_get_present d k v default :
  NoDup (dict_keys d) -> In (k, v) d -> dict_get d k default = v.
Proof.
  induction d as [|[k0 v0] d IH]; simpl; intros Hnd Hin; [contradiction|].
  inversion Hnd as [|? ? Hk0 Hnd']; subst.
  destruct Hin as [[= -> ->]|Hin].
  - now rewrite String.eqb_refl.
  - destruct (String.eqb_spec k0 k) as [->|]; [|now apply IH].
    exfalso. apply Hk0. change k with (fst (k, v)). now apply in_map.
Qed.

Lemma dict_keys_set_present d k v :
  In k (dict_keys d) -> dict_keys (dict_set d k v) = dict_keys d.
Proof.
  induction d as [|[k0 v0] d IH]; simpl; intros Hk; [contradiction|].
  destruct (String.eqb_spec k0 k) as [->|Hne]; simpl; [reflexivity|].
  f_equal. apply IH. destruct Hk; [contradiction | assumption].
Qed.

Lemma dict_keys_set_absent d k v :
  ~ In k (dict_keys d) -> dict_keys (dict_set d k v) = dict_keys d ++ [k].
Proof.
  induction d as [|[k0 v0] d IH]; simpl; intros Hk; [reflexivity|].
  destruct (String.eqb_spec k0 k) as [->|Hne]; simpl; [tauto|].
  f_equal. apply IH. tauto.
Qed.

End Dict.

Lemma sum_app (xs ys : list Z) : sum (xs ++ ys) = sum xs + sum ys.
Proof. induction xs as [|x xs IH]; simpl; [reflexivity | rewrite IH; lia]. Qed.

(** Adding one to a key's count, inserting the key at count one when it is
    new, adds one to the sum of the counts. *)
Lemma sum_values_incr (d : dict Z) (k : string) :
  sum (dict_values (dict_set d k (dict_get d k 0 + 1))) = sum (dict_values d) + 1.
Proof.
  unfold dict_values.
  induction d as [|[k0 v0] d IH]; cbn [dict_set dict_get map snd]; [reflexivity|].
  destruct (String.eqb_spec k0 k) as [->|Hne]; cbn [map snd sum fold_right] in *.
  - lia.
  - fold (sum (map snd (dict_set d k (dict_get d k 0 + 1)))).
    fold (sum (map snd d)). rewrite IH. lia.
Qed.

End PyFacts.

(* ===================================================================== *)
(** * duplicate_finder.py: detection                                       *)
(* ===================================================================== *)

Module FinderFacts.
Import Py Pg Finder Spec PyFacts.

(** ** Lists *)

Lemma member_In (ids : list string) (id : string) :
  member ids id = true <-> In id ids.
Proof.
  unfold member. rewrite existsb_exists. split.
  - intros (x & Hx & Heq). apply String.eqb_eq in Heq. now subst.
  - intros Hin. exists id. split; [assumption | apply String.eqb_refl].
Qed.

Lemma filter_filter {A} (p q : A -> bool) (l : list A) :
  filter p (filter q l) = filter (fun x => p x && q x) l.
Proof.
  induction l as [|x l IH]; simpl; [reflexivity|].
  destruct (q x); simpl; rewrite ?andb_true_r, ?andb_false_r.
  - destruct (p x); now rewrite IH.
  - exact IH.
Qed.

Lemma filter_all {A} (p : A -> bool) (l : list A) :
  (forall x, In x l -> p x = true) -> filter p l = l.
Proof.
  induction l as [|x l IH]; simpl; intros Hp; [reflexivity|].
  rewrite (Hp x) by now left. f_equal. apply IH. auto.
Qed.

Lemma first_occurrences_In (ids : list string) (id : string) :
  In id (first_occurrences ids) <-> In id ids.
Proof.
  induction ids as [|x ids IH]; simpl; [tauto|].
  rewrite filter_In, IH, negb_true_iff, String.eqb_neq.
  destruct (string_dec x id); [subst|]; intuition congruence.
Qed.

Lemma first_occurrences_NoDup (ids : list string) : NoDup (first_occurrences ids).
Proof.
  induction ids as [|x ids IH]; simpl; constructor.
  - rewrite filter_In, negb_true_iff, String.eqb_neq. tauto.
  - now apply NoDup_filter.
Qed.

(** ** The counting loop *)

Lemma scan_record_count (ids : list string) (st : scan_state) :
  hex_id_count (fold_left scan_record ids st) = fold_left count_id ids (hex_id_count st).
Proof.
  revert st. induction ids as [|id ids IH]; intros st; simpl; [reflexivity|].
  now rewrite IH.
Qed.

Lemma count_id_sum (ids : list string) (d : dict Z) :
  sum (dict_values (fold_left count_id ids d)) =
  sum (dict_values d) + Z.of_nat (List.length ids).
Proof.
  revert d. induction ids as [|id ids IH]; intros d.
  - simpl. lia.
  - cbn [fold_left List.length]. rewrite IH. unfold count_id.
    rewrite sum_values_incr. lia.
Qed.

Lemma count_id_get (ids : list string) (d : dict Z) (id : string) :
  dict_get (fold_left count_id ids d) id 0 = dict_get d id 0 + occurrences ids id.
Proof.
  unfold occurrences.
  revert d. induction ids as [|x ids IH]; intros d.
  - simpl. lia.
  - cbn [fold_left count_occ]. rewrite IH. unfold count_id.
    rewrite dict_get_set.
    destruct (string_dec x id) as [->|Hne].
    + rewrite String.eqb_refl. lia.
    + apply String.eqb_neq in Hne. rewrite Hne. lia.
Qed.

Lemma count_id_keys (ids : list string) (d : dict Z) :
  dict_keys (fold_left count_id ids d) =
  dict_keys d ++ filter (fun x => negb (member (dict_keys d) x)) (first_occurrences ids).
Proof.
  revert d. induction ids as [|id ids IH]; intros d.
  - simpl. now rewrite app_nil_r.
  - cbn [fold_left first_occurrences filter]. rewrite IH. unfold count_id.
    destruct (member (dict_keys d) id) eqn:Hmem; cbn [negb].
    + apply member_In in Hmem.
      rewrite dict_keys_set_present by assumption.
      f_equal. rewrite filter_filter. apply filter_ext. intros x.
      destruct (member (dict_keys d) x) eqn:Hx; [reflexivity|]. cbn [negb andb].
      destruct (String.eqb_spec x id) as [->|]; [|reflexivity].
      apply member_In in Hmem. congruence.
    + assert (Hnot : ~ In id (dict_keys d)).
      { intros Hin. apply member_In in Hin. congruence. }
      rewrite dict_keys_set_absent by assumption.
      rewrite <- app_assoc. f_equal.
      apply (f_equal (cons id)).
      rewrite filter_filter. apply filter_ext. intros x.
      unfold member. rewrite existsb_app. cbn [existsb].
      rewrite orb_false_r, negb_orb. reflexivity.
Qed.

(** ** The duplicate filter *)

Lemma visit_item_duplicates (items : list (string * Z)) (st : dup_state) :
  duplicates (fold_left visit_item items st) =
  duplicates st ++ filter (fun item => 1 <? snd item) items.
Proof.
  revert st. induction items as [|[id c] items IH]; intros st.
  - simpl. now rewrite app_nil_r.
  - cbn [fold_left filter snd]. rewrite IH. unfold visit_item.
    destruct (1 <? c); cbn [duplicates]; [|reflexivity].
    now rewrite <- app_assoc.
Qed.

Lemma find_duplicates_filter (d : dict Z) :
  find_duplicates d = filter (fun item => 1 <? snd item) (dict_items d).
Proof.
  unfold find_duplicates, find_duplicates_run. now rewrite visit_item_duplicates.
Qed.

Lemma dict_get_In (d : dict Z) (k : string) (default : Z) :
  dict_get d k default <> default -> In (k, dict_get d k default) d.
Proof.
  induction d as [|[k0 v0] d IH]; simpl; intros Hne; [congruence|].
  destruct (String.eqb_spec k0 k) as [->|]; [now left | right; auto].
Qed.

Lemma keys_of_filter (d : dict Z) (f : string -> Z) (g : Z -> bool) :
  (forall k v, In (k, v) d -> v = f k) ->
  map fst (filter (fun item => g (snd item)) d) = filter (fun k => g (f k)) (map fst d).
Proof.
  induction d as [|[k v] d IH]; simpl; intros Hf; [reflexivity|].
  rewrite <- (Hf k v) by now left.
  destruct (g v); simpl; rewrite IH; auto.
Qed.

(** The mapping of a scan is what the counting step builds from the empty
    mapping. *)
Lemma get_hex_ids_fold (conn : connection) :
  get_hex_ids conn = fold_left count_id (scan_hex_ids conn) [].
Proof. unfold get_hex_ids, get_hex_ids_run. now rewrite scan_record_count. Qed.

Lemma get_hex_ids_get (conn : connection) (id : string) :
  dict_get (get_hex_ids conn) id 0 = occurrences (scan_hex_ids conn) id.
Proof. rewrite get_hex_ids_fold, count_id_get. reflexivity. Qed.

Lemma get_hex_ids_keys (conn : connection) :
  dict_keys (get_hex_ids conn) = first_occurrences (scan_hex_ids conn).
Proof.
  rewrite get_hex_ids_fold, count_id_keys. cbn [dict_keys map app].
  apply filter_all. reflexivity.
Qed.

(** C9. For every scanned sequence of hex_id values, the mapping built by
    [get_hex_ids] has counts that sum to the number of scanned rows, gives
    each id the number of its occurrences (and 0, hence no entry, to an id
    that does not occur), and holds one entry per distinct id, inserted when
    the id is first seen. *)
Theorem get_hex_ids_counts (conn : connection) :
  let ids := scan_hex_ids conn in
  let hex_id_count := get_hex_ids conn in
  sum (dict_values hex_id_count) = Z.of_nat (List.length ids)
  /\ (forall id, dict_get hex_id_count id 0 = occurrences ids id)
  /\ dict_keys hex_id_count = first_occurrences ids
  /\ NoDup (dict_keys hex_id_count).
Proof.
  intros ids hex_id_count. repeat split.
  - unfold hex_id_count. rewrite get_hex_ids_fold, count_id_sum. reflexivity.
  - intros id. apply get_hex_ids_get.
  - apply get_hex_ids_keys.
  - unfold hex_id_count. rewrite get_hex_ids_keys. apply first_occurrences_NoDup.
Qed.

(** C8. For every id-to-count mapping, [find_duplicates] returns exactly the
    (hex_id, count) items with count > 1, in the order of the mapping: an id
    is in the result iff its count exceeds 1, and an id with count 1 is
    absent. For the mapping of a scan that order is the order of first
    occurrence, and the scan of A, A, B, A, C, C gives the counts A:3, B:1,
    C:2 and the duplicates (A,3), (C,2). *)
Theorem find_duplicates_exact (hex_id_count : dict Z)
    (Hkeys : NoDup (dict_keys hex_id_count)) :
  find_duplicates hex_id_count =
    filter (fun item => 1 <? snd item) (dict_items hex_id_count)
  /\ (forall id, In id (map fst (find_duplicates hex_id_count))
                 <-> 1 < dict_get hex_id_count id 0)
  /\ (forall id, dict_get hex_id_count id 0 = 1 ->
                 ~ In id (map fst (find_duplicates hex_id_count)))
  /\ (forall conn,
        map fst (find_duplicates (get_hex_ids conn)) =
        filter (fun id => 1 <? occurrences (scan_hex_ids conn) id)
               (first_occurrences (scan_hex_ids conn)))
  /\ get_hex_ids Scenario.scan = [("A", 3); ("B", 1); ("C", 2)]
  /\ find_duplicates (get_hex_ids Scenario.scan) = [("A", 3); ("C", 2)].
Proof.
  assert (Hiff : forall id, In id (map fst (find_duplicates hex_id_count))
                            <-> 1 < dict_get hex_id_count id 0).
  { intros id. rewrite find_duplicates_filter, in_map_iff. unfold dict_items. split.
    - intros ([k c] & Hk & Hin). cbn [fst] in Hk. subst k.
      apply filter_In in Hin. destruct Hin as [Hin Hc]. cbn [snd] in Hc.
      rewrite (dict_get_present _ _ _ 0 Hkeys Hin). lia.
    - intros Hgt. exists (id, dict_get hex_id_count id 0). split; [reflexivity|].
      apply filter_In. split.
      + apply dict_get_In. lia.
      + cbn [snd]. lia. }
  split; [apply find_duplicates_filter|].
  split; [exact Hiff|].
  split; [intros id H1 Hin; apply Hiff in Hin; lia|].
  split; [|split; reflexivity].
  intros conn.
  pose proof (get_hex_ids_keys conn) as Hk.
  rewrite find_duplicates_filter. unfold dict_items.
  rewrite (keys_of_filter _ (occurrences (scan_hex_ids conn)) (fun c => 1 <? c)).
  - unfold dict_keys in Hk. now rewrite Hk.
  - intros k v Hin. rewrite <- get_hex_ids_get. symmetry.
    apply dict_get_present; [|assumption].
    rewrite Hk. apply first_occurrences_NoDup.
Qed.

(** The mapping A:3, B:1, C:2 has the duplicates (A,3) and (C,2). *)
Lemma find_duplicates_exact_witness :
  NoDup (dict_keys [("A", 3); ("B", 1); ("C", 2)])
  /\ find_duplicates [("A", 3); ("B", 1); ("C", 2)] = [("A", 3); ("C", 2)].
Proof.
  assert (H : NoDup (dict_keys [("A", 3); ("B", 1); ("C", 2)])).
  { cbn. repeat constructor; cbn; intuition discriminate. }
  split; [exact H|].
  destruct (find_duplicates_exact _ H) as (Hf & _). rewrite Hf. reflexivity.
Defined.

End FinderFacts.

(* ===================================================================== *)
(** * duplicate_fixer.py: resolution                                       *)
(* ===================================================================== *)

Module FixerFacts.
Import Py Fixer Spec.

Lemma Qgtb_true (a b : Q) : Qgtb a b = true <-> (b < a)%Q.
Proof.
  unfold Qgtb. rewrite negb_true_iff. split.
  - intros H. apply Qnot_le_lt. intros Hle. apply Qle_bool_iff in Hle. congruence.
  - intros H. destruct (Qle_bool a b) eqn:E; [|reflexivity].
    apply Qle_bool_iff in E. exfalso. exact (Qlt_not_le _ _ H E).
Qed.

Lemma Qgtb_false (a b : Q) : Qgtb a b = false <-> (a <= b)%Q.
Proof.
  unfold Qgtb. rewrite negb_false_iff. apply Qle_bool_iff.
Qed.

Lemma truthy_cases (e : evi_value) :
  truthy e = (non_null e && negb (is_zero e)) || is_nan e.
Proof. destruct e; cbn; try reflexivity. now rewrite orb_false_r. Qed.

(** Off zero and off the NaN, the test of the loop is the presence of the
    attribute. *)
Lemma truthy_number (e : evi_value) :
  is_zero e = false -> is_nan e = false -> truthy e = non_null e.
Proof. intros Hz Hn. rewrite truthy_cases, Hz, Hn. cbn. now rewrite andb_true_r, orb_false_r. Qed.

Section Resolver.
Variable Geometry : Type.
Variable area : Geometry -> Q.
Variable h3_to_geo_boundary : string -> list (Q * Q).
Variable Polygon : list (Q * Q) -> Geometry.
Variable transform_project : Geometry -> Geometry.

#[local] Abbreviation row := (Fixer.row Geometry).
#[local] Abbreviation best := (Fixer.best Geometry).
#[local] Abbreviation visit := (Fixer.visit Geometry area).
#[local] Abbreviation scan := (Fixer.scan Geometry area).
#[local] Abbreviation deduplicate := (Fixer.deduplicate area h3_to_geo_boundary Polygon transform_project).
#[local] Abbreviation area_of m := (area (geometry m)).

#[local] Abbreviation hex_geom :=
  (Fixer.hex_geom h3_to_geo_boundary Polygon transform_project).

Lemma deduplicate_group (first second : row) (rest : list row) :
  deduplicate (first :: second :: rest) =
  let st := scan (hex_id first) (mk_best Geometry first (area_of first) []) 0
                 (first :: second :: rest) in
  Ok (with_geometry (largest_area_row Geometry st) (hex_geom (hex_id first)),
      log Geometry st).
Proof. reflexivity. Qed.

(** ** What one member does to the candidate *)

Lemma visit_skip (gid : string) (st : best) (idx : Z) (other : row) :
  truthy (evi other) = false ->
  visit gid st idx other =
  mk_best Geometry (largest_area_row _ st) (largest_area _ st)
          (log _ st ++ [NullEvi gid idx]).
Proof. intros H. unfold Fixer.visit. now rewrite H. Qed.

Lemma visit_replace (gid : string) (st : best) (idx : Z) (other : row) :
  truthy (evi other) = true -> (largest_area _ st < area_of other)%Q ->
  visit gid st idx other = mk_best Geometry other (area_of other) (log _ st).
Proof.
  intros H Hlt. unfold Fixer.visit. rewrite H. cbn [negb].
  apply Qgtb_true in Hlt. now rewrite Hlt.
Qed.

Lemma visit_keep (gid : string) (st : best) (idx : Z) (other : row) :
  truthy (evi other) = true -> (area_of other <= largest_area _ st)%Q ->
  visit gid st idx other = st.
Proof.
  intros H Hle. unfold Fixer.visit. rewrite H. cbn [negb].
  apply Qgtb_false in Hle. now rewrite Hle.
Qed.

(** The candidate after a member is the candidate before it or that member,
    and the recorded area is the candidate's. *)
Lemma visit_candidate (gid : string) (st : best) (idx : Z) (other : row) :
  largest_area _ st = area_of (largest_area_row _ st) ->
  let st' := visit gid st idx other in
  largest_area _ st' = area_of (largest_area_row _ st')
  /\ (largest_area_row _ st' = largest_area_row _ st \/ largest_area_row _ st' = other).
Proof.
  intros Harea. unfold Fixer.visit.
  destruct (truthy (evi other)); cbn [negb].
  - destruct (Qgtb (area_of other) (largest_area _ st)); cbn; auto.
  - cbn. auto.
Qed.

(** ** The candidate stays when no later member beats it *)

Lemma scan_keeps (gid : string) (rows : list row) (st : best) (idx : Z) :
  (forall m, In m rows -> truthy (evi m) = true ->
             (area_of m <= largest_area _ st)%Q) ->
  largest_area_row _ (scan gid st idx rows) = largest_area_row _ st
  /\ largest_area _ (scan gid st idx rows) = largest_area _ st.
Proof.
  revert st idx. induction rows as [|other rows IH]; intros st idx Hrows.
  - split; reflexivity.
  - cbn [Fixer.scan].
    destruct (truthy (evi other)) eqn:Hevi.
    + rewrite visit_keep by (auto using in_eq).
      apply IH. intros m Hm. apply Hrows. now right.
    + rewrite visit_skip by assumption.
      destruct (IH (mk_best Geometry (largest_area_row _ st) (largest_area _ st)
                       (log _ st ++ [NullEvi gid idx])) (idx + 1)) as [H1 H2].
      * intros m Hm. cbn. apply Hrows. now right.
      * split; assumption.
Qed.

Lemma scan_member (gid : string) (rows : list row) (st : best) (idx : Z) :
  largest_area_row _ (scan gid st idx rows) = largest_area_row _ st
  \/ In (largest_area_row _ (scan gid st idx rows)) rows.
Proof.
  revert st idx. induction rows as [|other rows IH]; intros st idx.
  - now left.
  - cbn [Fixer.scan].
    destruct (IH (visit gid st idx other) (idx + 1)) as [H|H].
    + rewrite H. unfold Fixer.visit.
      destruct (truthy (evi other)); cbn [negb].
      * destruct (Qgtb _ _); cbn; [right; now left | now left].
      * cbn. now left.
    + right. now right.
Qed.

(** ** The candidate is the first to reach the largest area *)

Section FirstMax.
Variable rows : list row.
Variable candidate : nat -> row -> bool.

#[local] Abbreviation selected := (Spec.selected area rows candidate).

(** The loop compares exactly the candidates: a member after the first is
    compared iff it is a candidate, and a compared member is one. *)
Hypothesis compared_candidate :
  forall j mj, nth_error rows j = Some mj -> truthy (evi mj) = true ->
               candidate j mj = true.
Hypothesis candidate_compared :
  forall j mj, (0 < j)%nat -> nth_error rows j = Some mj -> candidate j mj = true ->
               truthy (evi mj) = true.

Lemma selected_visit (gid : string) (n : nat) (st : best) (idx : Z) (other : row) :
  nth_error rows n = Some other ->
  selected n st -> selected (S n) (visit gid st idx other).
Proof.
  intros Hn (Harea & i & Hi & Hcand & Hmax & Hfirst).
  assert (Hle : forall j mj, (j < S n \/ j = 0)%nat -> nth_error rows j = Some mj ->
                  candidate j mj = true -> truthy (evi other) = false ->
                  (area_of mj <= area_of (largest_area_row _ st))%Q).
  { intros j mj Hj Hmj Hc Hskip.
    destruct (Nat.eq_dec j n) as [->|Hne]; [|apply (Hmax j); auto; lia].
    destruct (Nat.eq_dec n 0) as [->|Hpos]; [apply (Hmax 0%nat); auto|].
    rewrite Hn in Hmj. injection Hmj as <-.
    rewrite (candidate_compared n other) in Hskip by (auto; lia). discriminate. }
  destruct (truthy (evi other)) eqn:Hevi.
  - destruct (Qlt_le_dec (largest_area _ st) (area_of other)) as [Hlt|Hge].
    + rewrite visit_replace by assumption. split; [reflexivity|]. cbn.
      rewrite Harea in Hlt.
      exists n. repeat split; [assumption | now apply (compared_candidate n) | |].
      * intros j mj Hj Hmj Hc.
        destruct (Nat.eq_dec j n) as [->|Hne].
        -- rewrite Hn in Hmj. injection Hmj as <-. apply Qle_refl.
        -- apply Qlt_le_weak. apply Qle_lt_trans with (2 := Hlt).
           apply (Hmax j); auto. lia.
      * intros j mj Hj Hmj Hc.
        apply Qle_lt_trans with (2 := Hlt). apply (Hmax j); auto.
    + rewrite visit_keep by assumption. split; [assumption|].
      exists i. repeat split; auto.
      intros j mj Hj Hmj Hc.
      destruct (Nat.eq_dec j n) as [->|Hne]; [|apply (Hmax j); auto; lia].
      rewrite Hn in Hmj. injection Hmj as <-. now rewrite <- Harea.
  - rewrite visit_skip by assumption. split; [assumption|]. cbn.
    exists i. repeat split; auto.
    intros j mj Hj Hmj Hc. now apply (Hle j).
Qed.

Lemma selected_scan (gid : string) (post pre : list row) (st : best) (idx : Z) :
  rows = pre ++ post ->
  selected (List.length pre) st ->
  selected (List.length rows) (scan gid st idx post).
Proof.
  revert pre st idx. induction post as [|other post IH]; intros pre st idx Hrows Hsel.
  - rewrite app_nil_r in Hrows. subst pre. exact Hsel.
  - cbn [Fixer.scan].
    apply (IH (pre ++ [other])).
    + now rewrite <- app_assoc.
    + rewrite length_app, Nat.add_1_r. apply selected_visit; [|assumption].
      rewrite Hrows, nth_error_app2, Nat.sub_diag by lia. reflexivity.
Qed.

End FirstMax.

(** C4, as the code has it. A group of exactly one member is returned as it
    is: the resolved record is that member, with the member's own attributes
    and the member's own stored geometry, and nothing is logged. *)
Theorem deduplicate_single_member (only : row) :
  exists resolved,
    deduplicate [only] = Ok (resolved, [])
    /\ resolved = only
    /\ attrs resolved = attrs only
    /\ geometry resolved = geometry only.
Proof. exists only. repeat split. Qed.

(** C5, as the code has it. A member whose area ties with the current best
    does not replace it. In a group of at least two members none of whose
    later members has an [evi] of zero or a NaN, the resolved record carries
    the id, the [evi] and the other attributes of the first member to reach
    the largest area among the candidates, the candidates being the first
    member, whatever its [evi], and the members with a non-null [evi]; its
    geometry is the polygon over the flipped boundary of the cell of the
    first member's id, reprojected. In group D the attributes of the second
    member are copied. *)
Theorem first_largest_candidate_wins (first second : row) (rest : list row)
    (Hnumber : forall m, In m (second :: rest) ->
                 is_zero (evi m) = false /\ is_nan (evi m) = false) :
  let group := first :: second :: rest in
  (forall gid st idx other,
      (area_of other == largest_area _ st)%Q ->
      largest_area_row _ (visit gid st idx other) = largest_area_row _ st)
  /\ (exists i primary resolved notes,
        deduplicate group = Ok (resolved, notes)
        /\ first_max area first_or_bearing_evi group i primary
        /\ hex_id resolved = hex_id primary
        /\ evi resolved = evi primary
        /\ attrs resolved = attrs primary
        /\ geometry resolved =
           transform_project
             (Polygon (map (fun coord => (snd coord, fst coord))
                           (h3_to_geo_boundary (hex_id first)))))
  /\ (exists resolved,
        Scenario.resolve [Scenario.d1; Scenario.d2; Scenario.d3] = Ok (resolved, [])
        /\ attrs resolved = [("name", "member2")]
        /\ geometry resolved =
           Scenario.Projected (Scenario.Ring [(0, 0); (1, 0); (0, 1)]%Q)).
Proof.
  intros group. split; [|split].
  - intros gid st idx other Htie. unfold Fixer.visit.
    destruct (truthy (evi other)); cbn [negb]; [|reflexivity].
    assert (Hle : (area_of other <= largest_area _ st)%Q) by (rewrite Htie; apply Qle_refl).
    apply Qgtb_false in Hle. now rewrite Hle.
  - unfold group at 1. rewrite deduplicate_group. fold group.
    set (st0 := mk_best Geometry first (area_of first) []).
    set (st := scan (hex_id first) st0 0 group).
    assert (Hlater : forall j mj, nth_error group (S j) = Some mj ->
                       truthy (evi mj) = non_null (evi mj)).
    { intros j mj Hmj. destruct (Hnumber mj) as [Hz Hn].
      - now apply nth_error_In with j.
      - now apply truthy_number. }
    assert (Hsel : Spec.selected area group first_or_bearing_evi (List.length group) st).
    { apply (selected_scan group first_or_bearing_evi) with (pre := []).
      - intros j mj Hmj Hevi. unfold first_or_bearing_evi.
        destruct j as [|j]; [reflexivity|].
        rewrite <- (Hlater j mj Hmj), Hevi. apply orb_true_r.
      - intros j mj Hj Hmj Hc. destruct j as [|j]; [lia|].
        unfold first_or_bearing_evi in Hc. cbn [Nat.eqb orb] in Hc.
        now rewrite (Hlater j mj Hmj).
      - reflexivity.
      - split; [reflexivity|]. exists 0%nat. cbn. repeat split.
        + intros j mj [Hj| ->] Hmj _; [lia|]. injection Hmj as <-. apply Qle_refl.
        + intros j mj Hj. lia. }
    destruct Hsel as (_ & i & Hi & Hcand & Hmax & Hfirst).
    exists i, (largest_area_row _ st). do 2 eexists.
    split; [reflexivity|].
    split; [|split; [reflexivity | split; [reflexivity | split; reflexivity]]].
    split; [exact Hi | split; [exact Hcand | split; [|exact Hfirst]]].
    intros j mj Hmj Hc. apply (Hmax j); [|assumption..].
    left. apply nth_error_Some. congruence.
  - eexists. split; [reflexivity|]. split; reflexivity.
Qed.

End Resolver.

(** Group D: no later member has an [evi] of zero or a NaN, and the
    attributes copied are those of the first candidate of largest area. *)
Lemma first_largest_candidate_wins_witness :
  (forall m, In m [Scenario.d2; Scenario.d3] ->
     is_zero (evi m) = false /\ is_nan (evi m) = false)
  /\ exists i primary resolved notes,
       Scenario.resolve [Scenario.d1; Scenario.d2; Scenario.d3] = Ok (resolved, notes)
       /\ first_max Scenario.shape_area first_or_bearing_evi
            [Scenario.d1; Scenario.d2; Scenario.d3] i primary
       /\ hex_id resolved = hex_id primary
       /\ evi resolved = evi primary
       /\ attrs resolved = attrs primary
       /\ geometry resolved =
          Scenario.Projected (Scenario.Ring [(0, 0); (1, 0); (0, 1)]%Q).
Proof.
  assert (H : forall m, In m [Scenario.d2; Scenario.d3] ->
                is_zero (evi m) = false /\ is_nan (evi m) = false).
  { intros m [<-|[<-|[]]]; split; reflexivity. }
  split; [exact H|].
  exact (proj1 (proj2 (first_largest_candidate_wins Scenario.shape Scenario.shape_area
                         Scenario.boundary Scenario.Ring Scenario.Projected
                         Scenario.d1 Scenario.d2 [Scenario.d3] H))).
Defined.

(** C4, as stated, fails: the single member of group S comes back with its
    stored geometry, which is not the cell polygon of S. *)
Lemma single_member_keeps_stored_geometry :
  exists resolved notes,
    Scenario.resolve [Scenario.s1] = Ok (resolved, notes)
    /\ attrs resolved = attrs Scenario.s1
    /\ geometry resolved = Scenario.Stored 50
    /\ geometry resolved <> Scenario.cell_polygon "S".
Proof.
  exists Scenario.s1, []. repeat split. discriminate.
Qed.

(** C5, as stated, fails: in group C the first member of largest area among
    the members bearing an [evi] is the second one, and the attributes
    copied are those of the first one, which bears none. *)
Lemma primary_without_evi :
  exists resolved notes,
    Scenario.resolve [Scenario.c1; Scenario.c2] = Ok (resolved, notes)
    /\ attrs resolved = [("name", "member1")]
    /\ non_null (evi Scenario.c1) = false
    /\ first_max Scenario.shape_area bearing_evi [Scenario.c1; Scenario.c2] 1 Scenario.c2
    /\ (forall i primary,
          first_max Scenario.shape_area bearing_evi [Scenario.c1; Scenario.c2] i primary ->
          primary = Scenario.c2 /\ attrs resolved <> attrs primary).
Proof.
  do 2 eexists. split; [reflexivity|]. split; [reflexivity|]. split; [reflexivity|]. split.
  - split; [reflexivity|]. split; [reflexivity|]. split.
    + intros [|[|[|j]]] mj Hmj Hc; cbn in Hmj; try discriminate; injection Hmj as <-.
      * discriminate Hc.
      * apply Qle_refl.
    + intros [|[|j]] mj Hj Hmj Hc; try lia.
      cbn in Hmj. injection Hmj as <-. discriminate Hc.
  - intros i primary (Hi & Hcand & _).
    destruct i as [|[|[|i]]]; cbn in Hi; try discriminate; injection Hi as <-.
    + discriminate Hcand.
    + split; [reflexivity | discriminate].
Qed.

(** C6 at group N: the [evi] of both members is null, a NaN, yet the second
    member, of larger area, is compared and replaces the first one: the
    record written carries the attributes of the second member, and nothing
    is logged. The test of the loop is the truth value of [evi], and a NaN
    is true. *)
Lemma nan_null_member_replaces_first :
  (forall m, In m [Scenario.n1; Scenario.n2] -> non_null (evi m) = false)
  /\ truthy EviNaN = true
  /\ exists resolved,
       Scenario.resolve [Scenario.n1; Scenario.n2] = Ok (resolved, [])
       /\ hex_id resolved = "N"
       /\ attrs resolved = [("name", "member2")]
       /\ attrs resolved <> attrs Scenario.n1
       /\ geometry resolved = Scenario.Projected (Scenario.Ring [(0, 0); (1, 0); (0, 1)]%Q).
Proof.
  split; [intros m [<-|[<-|[]]]; reflexivity|]. split; [reflexivity|].
  eexists. split; [reflexivity|]. repeat split. discriminate.
Qed.

(** C3 at group E: the second member has a non-null [evi], the number 0, and
    the strictly larger area, yet it is skipped with the null notification
    and the first member is copied. *)
Lemma zero_evi_member_skipped :
  Scenario.resolve [Scenario.e1; Scenario.e2] =
    Ok (with_geometry Scenario.e1 (Scenario.cell_polygon "E"), [NullEvi "E" 1])
  /\ non_null (evi Scenario.e2) = true
  /\ (Scenario.shape_area (geometry Scenario.e1)
        < Scenario.shape_area (geometry Scenario.e2))%Q.
Proof.
  repeat split.
Qed.

End FixerFacts.

(* ===================================================================== *)
(** * duplicate_finder.py: the batched fetch                               *)
(* ===================================================================== *)

Module FetchFacts.
Import Py Pg Finder Spec PyFacts FinderFacts.

(** ** Batches *)

Lemma batched_rounds_concat {A} (rounds n : nat) (l : list A) :
  (0 < n)%nat -> (List.length l <= rounds)%nat ->
  List.concat (batched_rounds rounds n l) = l.
Proof.
  intros Hn. revert l. induction rounds as [|rounds IH]; intros l Hlen.
  - destruct l; [reflexivity | simpl in Hlen; lia].
  - destruct l as [|x l]; [reflexivity|].
    cbn [batched_rounds List.concat]. rewrite IH.
    + apply firstn_skipn.
    + rewrite length_skipn. cbn [List.length] in *. lia.
Qed.

Lemma batched_rounds_nonempty {A} (rounds n : nat) (l : list A) :
  (0 < n)%nat -> Forall (fun batch => batch <> []) (batched_rounds rounds n l).
Proof.
  intros Hn. revert l. induction rounds as [|rounds IH]; intros l; [constructor|].
  destruct l as [|x l]; [constructor|].
  cbn [batched_rounds]. constructor; [|apply IH].
  destruct n; [lia | discriminate].
Qed.

(** A positive batch size cuts the list into non-empty batches that
    concatenate back to it. *)
Lemma batched_ok {A} (l : list A) (n : nat) :
  (0 < n)%nat ->
  exists batches, batched l n = Ok batches
    /\ List.concat batches = l
    /\ Forall (fun batch => batch <> []) batches.
Proof.
  intros Hn. destruct n as [|n]; [lia|].
  exists (batched_rounds (List.length l) (S n) l). split; [reflexivity|]. split.
  - now apply batched_rounds_concat.
  - now apply batched_rounds_nonempty.
Qed.

(** ** The query text and its reading by the server *)

Lemma strip_prefix_app (p s : string) : strip_prefix p (p ++ s) = Some s.
Proof.
  induction p as [|c p IH]; simpl; [reflexivity|].
  now rewrite Ascii.eqb_refl.
Qed.

Lemma in_constant_chars (x rest acc : string) (consts : list string) :
  str_mem SQUOTE x = false ->
  in_list (InConstant acc) consts (x ++ rest) =
  in_list (InConstant (acc ++ x)) consts rest.
Proof.
  revert acc. induction x as [|c x IH]; intros acc Hx.
  - simpl. now rewrite append_nil_r.
  - cbn [str_mem] in Hx. apply orb_false_iff in Hx. destruct Hx as [Hc Hx].
    cbn [append in_list]. rewrite Hc, IH by assumption.
    unfold chr. rewrite append_assoc. reflexivity.
Qed.

(** A non-empty batch of quote-free ids is read back as that batch. *)
Lemma in_list_batch (batch consts : list string) :
  batch <> [] -> quote_free batch ->
  in_list ExpectConstant consts ("'" ++ String.concat "','" batch ++ "')") =
  Some (consts ++ batch).
Proof.
  revert consts. induction batch as [|x batch IH]; intros consts Hne Hfree; [congruence|].
  assert (Hx : str_mem SQUOTE x = false) by (apply Hfree; now left).
  destruct batch as [|y batch].
  - cbn [String.concat append in_list]. cbn [Ascii.eqb SQUOTE Bool.eqb].
    rewrite in_constant_chars by assumption. reflexivity.
  - cbn [String.concat]. rewrite append_assoc.
    cbn [append in_list]. cbn [Ascii.eqb SQUOTE Bool.eqb].
    rewrite in_constant_chars by assumption.
    cbn [append in_list]. cbn [Ascii.eqb SQUOTE COMMA Bool.eqb].
    change (consts ++ x :: y :: batch) with (consts ++ [x] ++ y :: batch).
    rewrite app_assoc. apply IH.
    + discriminate.
    + intros id Hid. apply Hfree. now right.
Qed.

Lemma hex_id_in_member (consts : list string) (r : db_row) :
  hex_id_in consts r = member consts (row_hex_id r).
Proof. reflexivity. Qed.

Lemma execute_batch (conn : connection) (batch : list string) :
  batch <> [] -> quote_free batch ->
  execute conn (build_query batch) = Ok (rows_with_id conn batch).
Proof.
  intros Hne Hfree. unfold execute, build_query.
  rewrite strip_prefix_app.
  replace (("'" ++ String.concat "','" batch ++ "'") ++ ")")%string
    with ("'" ++ String.concat "','" batch ++ "')")%string
    by (cbn [append]; now rewrite append_assoc).
  now rewrite (in_list_batch batch []).
Qed.

(** ** The loop over the batches *)

Lemma take_records (batch_size total_count : Z) (records : list db_row)
    (st : fetch_state) :
  let st' := fold_left (take_record batch_size total_count) records st in
  rows st' = rows st ++ records
  /\ colnames st' = colnames st
  /\ executed st' = executed st.
Proof.
  revert st. induction records as [|r records IH]; intros st.
  - cbn. now rewrite app_nil_r.
  - cbn [fold_left]. destruct (IH (take_record batch_size total_count st r)) as (H1 & H2 & H3).
    cbn zeta. rewrite H1, H2, H3. cbn. now rewrite <- app_assoc.
Qed.

Lemma fetch_batch_inv (conn : connection) (batch_size total_count : Z)
    (st st' : fetch_state) (batch : list string) :
  fetch_batch conn batch_size total_count st batch = Ok st' ->
  exists records,
    execute conn (build_query batch) = Ok records
    /\ rows st' = rows st ++ records
    /\ colnames st' = names_after conn st
    /\ executed st' = executed st ++ [build_query batch].
Proof.
  unfold fetch_batch. destruct (execute conn (build_query batch)) as [records|e];
    cbn [bind]; [|discriminate].
  intros [= <-]. exists records. split; [reflexivity|].
  match goal with |- context [fold_left ?f records ?s] =>
    destruct (take_records batch_size total_count records s) as (H1 & H2 & H3) end.
  cbn zeta in *. rewrite H1, H2, H3. cbn. auto.
Qed.

Lemma fetch_batches_inv (conn : connection) (batch_size total_count : Z)
    (batches : list (list string)) (st st' : fetch_state) :
  fetch_batches conn batch_size total_count st batches = Ok st' ->
  executed st' = executed st ++ map build_query batches
  /\ colnames st' = match batches with
                    | [] => colnames st
                    | _ :: _ => names_after conn st
                    end.
Proof.
  revert st. induction batches as [|batch batches IH]; intros st.
  - cbn. intros [= <-]. now rewrite app_nil_r.
  - cbn [fetch_batches].
    destruct (fetch_batch conn batch_size total_count st batch) as [st1|e] eqn:Hb;
      cbn [bind]; [|discriminate].
    intros Hrest. apply fetch_batch_inv in Hb.
    destruct Hb as (records & _ & _ & Hnames & Hexec).
    apply IH in Hrest. destruct Hrest as [Hexec' Hnames'].
    split.
    + rewrite Hexec', Hexec, <- app_assoc. reflexivity.
    + rewrite Hnames'. destruct batches; [assumption|].
      unfold names_after. rewrite Hnames. unfold names_after.
      destruct (colnames st); reflexivity.
Qed.

(** When the server answers every batch with the rows of its ids, the loop
    ends with the rows of the batches one after the other. *)
Lemma fetch_batches_rows (conn : connection) (batch_size total_count : Z)
    (batches : list (list string)) (st : fetch_state) :
  (forall batch, In batch batches ->
     execute conn (build_query batch) = Ok (rows_with_id conn batch)) ->
  exists st', fetch_batches conn batch_size total_count st batches = Ok st'
    /\ rows st' = rows st ++ flat_map (rows_with_id conn) batches.
Proof.
  revert st. induction batches as [|batch batches IH]; intros st Hexec.
  - exists st. cbn. now rewrite app_nil_r.
  - cbn [fetch_batches].
    assert (Hb : exists st1, fetch_batch conn batch_size total_count st batch = Ok st1
                   /\ rows st1 = rows st ++ rows_with_id conn batch).
    { unfold fetch_batch. rewrite Hexec by now left. cbn [bind].
      eexists. split; [reflexivity|].
      match goal with |- context [fold_left ?f ?rs ?s] =>
        destruct (take_records batch_size total_count rs s) as (H1 & _) end.
      cbn zeta in H1. rewrite H1. reflexivity. }
    destruct Hb as (st1 & Hb & Hrows1). rewrite Hb. cbn [bind].
    destruct (IH st1) as (st' & Hrest & Hrows).
    { intros b Hin. apply Hexec. now right. }
    exists st'. split; [assumption|].
    rewrite Hrows, Hrows1, <- app_assoc. reflexivity.
Qed.

(** ** Rows of a list of ids cut into batches *)

Lemma NoDup_app_disjoint {A} (l1 l2 : list A) (a : A) :
  NoDup (l1 ++ l2) -> In a l1 -> ~ In a l2.
Proof.
  induction l1 as [|x l1 IH]; cbn; intros Hnd Hin; [contradiction|].
  inversion Hnd as [|? ? Hx Hnd']; subst.
  destruct Hin as [->|Hin]; [|now apply IH].
  intros Ha. apply Hx. apply in_or_app. now right.
Qed.

Lemma filter_either {A} (p q : A -> bool) (l : list A) :
  (forall x, p x = true -> q x = false) ->
  Permutation (filter p l ++ filter q l) (filter (fun x => p x || q x) l).
Proof.
  intros Hpq. induction l as [|x l IH]; cbn; [constructor|].
  destruct (p x) eqn:Hp; cbn.
  - rewrite (Hpq x Hp). now constructor.
  - destruct (q x).
    + apply Permutation_sym, Permutation_cons_app, Permutation_sym, IH.
    + exact IH.
Qed.

Lemma rows_of_batches (conn : connection) (batches : list (list string)) :
  NoDup (List.concat batches) ->
  Permutation (flat_map (rows_with_id conn) batches)
              (rows_with_id conn (List.concat batches)).
Proof.
  induction batches as [|batch batches IH]; intros Hnd.
  - cbn. unfold rows_with_id. cbn.
    induction (national_dataset conn); cbn; [constructor | assumption].
  - cbn [flat_map List.concat] in *.
    rewrite IH by now apply NoDup_app_remove_l in Hnd.
    unfold rows_with_id at 1 2 3.
    rewrite (filter_ext (fun r => member (batch ++ List.concat batches) (row_hex_id r))
               (fun r => member batch (row_hex_id r)
                         || member (List.concat batches) (row_hex_id r))).
    + apply filter_either. intros r Hr.
      apply member_In in Hr.
      destruct (member (List.concat batches) (row_hex_id r)) eqn:E; [|reflexivity].
      apply member_In in E. exfalso.
      exact (NoDup_app_disjoint _ _ _ Hnd Hr E).
    + intros r. unfold member. apply existsb_app.
Qed.

(** ** The fetch on ids without quotes

    For ids that hold no single quote the fetch behaves as the contract
    asks, whatever the positive batch size: it returns, the rows are those
    of the batches in order, and for distinct ids they are the rows of the
    table whose [hex_id] is requested, each once. *)
Lemma get_rows_quote_free (batch_size : Z) (conn : connection) (hex_ids : list string) :
  0 < batch_size -> quote_free hex_ids ->
  exists batches st,
    batched hex_ids (Z.to_nat batch_size) = Ok batches
    /\ List.concat batches = hex_ids
    /\ get_rows_run batch_size conn hex_ids = Ok st
    /\ rows st = flat_map (rows_with_id conn) batches
    /\ executed st = map build_query batches
    /\ (hex_ids <> [] -> colnames st = Some (description conn))
    /\ (NoDup hex_ids -> Permutation (rows st) (rows_with_id conn hex_ids)).
Proof.
  intros Hsize Hfree.
  destruct (batched_ok hex_ids (Z.to_nat batch_size)) as (batches & Hb & Hcat & Hne); [lia|].
  destruct (fetch_batches_rows conn batch_size (Z.of_nat (List.length hex_ids))
              batches (mk_fetch [] None 0 [] [])) as (st & Hrun & Hrows).
  { intros batch Hin. apply execute_batch.
    - rewrite Forall_forall in Hne. now apply Hne.
    - intros id Hid. apply Hfree. rewrite <- Hcat. apply in_concat. eauto. }
  exists batches, st. cbn [rows app] in Hrows.
  destruct (fetch_batches_inv _ _ _ _ _ _ Hrun) as [Hexec Hnames].
  unfold get_rows_run. rewrite Hb. cbn [bind].
  repeat split; try assumption.
  - intros Hids. rewrite Hnames. destruct batches; [cbn in Hcat; congruence | reflexivity].
  - intros Hnd. rewrite Hrows, <- Hcat. apply rows_of_batches. now rewrite Hcat.
Qed.

(** C10. With an empty id list the fetch sends no query and returns
    [(None, [])]: no column names, no rows. [main] then fails on
    [column_names.index]. Column names are there as soon as one batch has
    run. *)
Theorem get_rows_by_hex_id_empty (conn : connection) :
  get_rows_by_hex_id conn [] = Ok (None, [])
  /\ get_rows_run ROWS_BATCH_SIZE conn [] = Ok (mk_fetch [] None 0 [] [])
  /\ main_fetch conn [] = Raise AttributeError
  /\ (forall hex_ids st,
        hex_ids <> [] -> get_rows_run ROWS_BATCH_SIZE conn hex_ids = Ok st ->
        colnames st = Some (description conn) /\ executed st <> []).
Proof.
  split; [reflexivity|]. split; [reflexivity|]. split; [reflexivity|].
  intros hex_ids st Hids Hrun. unfold get_rows_run in Hrun.
  destruct (batched_ok hex_ids (Z.to_nat ROWS_BATCH_SIZE)) as (batches & Hb & Hcat & _).
  { unfold ROWS_BATCH_SIZE. lia. }
  rewrite Hb in Hrun. cbn [bind] in Hrun.
  apply fetch_batches_inv in Hrun. destruct Hrun as [Hexec Hnames].
  destruct batches as [|batch batches]; [cbn in Hcat; congruence|].
  split; [exact Hnames|]. rewrite Hexec. discriminate.
Qed.

(** C1 at an id that holds quotes and a comma. For all [a] and [b] the
    query built for the one id made of [a], quote, comma, quote, [b] is,
    character for character, the query built for the two ids [a] and [b].
    The id [a','b] is what [read_pairs_csv] returns for a line holding it
    in double quotes; the server is sent two constants, and the fetch
    returns the rows of [a] and of [b] and leaves out the row whose [hex_id]
    is the id asked for. *)
Lemma quoted_id_changes_query :
  (forall a b, build_query [(a ++ "','" ++ b)%string] = build_query [a; b])
  /\ read_pairs_csv Scenario.quoted_file "duplicate_hex_ids.csv" = Ok [("a','b", 2)]
  /\ build_query ["a','b"] = "SELECT * FROM national_dataset WHERE hex_id IN ('a','b')"
  /\ rows_with_id Scenario.quoted ["a','b"] = [Scenario.table_row "a','b"]
  /\ get_rows_by_hex_id Scenario.quoted ["a','b"] =
       Ok (Some ["hex_id"; "geom"], [Scenario.table_row "a"; Scenario.table_row "b"]).
Proof.
  repeat split.
Qed.

(** C7 at the distinct ids [A] and [x','B] over the scan A, A, B, A, C, C.
    Both ids go in the one batch of the fetcher as shipped; the query sent
    lists the constants A, x and B; the row of [B], an id that is not asked
    for, comes back with the three rows of [A], while the rows whose
    [hex_id] is asked for are the rows of [A] alone. *)
Lemma quoted_id_fetches_unrequested_rows :
  NoDup ["A"; "x','B"]
  /\ build_query ["A"; "x','B"] =
     "SELECT * FROM national_dataset WHERE hex_id IN ('A','x','B')"
  /\ get_rows_by_hex_id Scenario.scan ["A"; "x','B"] =
       Ok (Some ["hex_id"; "geom"], map Scenario.table_row ["A"; "A"; "B"; "A"])
  /\ rows_with_id Scenario.scan ["A"; "x','B"] = map Scenario.table_row ["A"; "A"; "A"]
  /\ ~ In "B" ["A"; "x','B"].
Proof.
  split; [repeat constructor; cbn; intuition discriminate|].
  split; [reflexivity|].
  split; [vm_compute; reflexivity|].
  split; [vm_compute; reflexivity|].
  cbn. intuition discriminate.
Qed.

End FetchFacts.

(* ===================================================================== *)
(** * duplicate_finder.py: the persisted duplicate ids                     *)
(* ===================================================================== *)

Module CsvFacts.
Import Py Finder Spec PyFacts.

(** ** Decimal digits *)

Lemma digits_of_uint (d : Decimal.uint) :
  all_chars is_digit (NilEmpty.string_of_uint d) = true.
Proof. induction d; cbn; auto. Qed.

Lemma decimal_of_pos (p : positive) :
  decimal_of_int (Zpos p) = NilEmpty.string_of_uint (Pos.to_uint p).
Proof.
  unfold decimal_of_int. cbn [Z.to_int NilZero.string_of_int].
  unfold NilZero.string_of_uint.
  destruct (Pos.to_uint p) eqn:E; try reflexivity.
  now apply Unsigned.to_uint_nonnil in E.
Qed.

Lemma decimal_digits (p : positive) :
  all_chars is_digit (decimal_of_int (Zpos p)) = true.
Proof. rewrite decimal_of_pos. apply digits_of_uint. Qed.

Lemma decimal_nonempty (p : positive) :
  decimal_of_int (Zpos p) <> "".
Proof.
  rewrite decimal_of_pos. pose proof (Unsigned.to_uint_nonnil p) as Hp.
  destruct (Pos.to_uint p); cbn; congruence.
Qed.

(** A digit is none of the characters the formats give a meaning to. *)
Lemma digit_plain (c : ascii) :
  is_digit c = true ->
  is_space c = false /\ Ascii.eqb c COMMA = false /\ Ascii.eqb c LF = false
  /\ Ascii.eqb c CR = false /\ Ascii.eqb c DQUOTE = false
  /\ Ascii.eqb c "_" = false /\ Ascii.eqb c "-" = false /\ Ascii.eqb c "+" = false.
Proof.
  destruct c as [[] [] [] [] [] [] [] []]; cbn; intros H;
    try discriminate H; repeat split.
Qed.

Lemma digits_without (x : ascii) (s : string) :
  is_digit x = false -> all_chars is_digit s = true -> str_mem x s = false.
Proof.
  intros Hx. induction s as [|c s IH]; cbn; [reflexivity|].
  intros H. apply andb_true_iff in H. destruct H as [Hc Hs].
  rewrite IH by assumption. rewrite orb_false_r.
  destruct (Ascii.eqb_spec c x); [congruence | reflexivity].
Qed.

Lemma lstrip_digits (s : string) : all_chars is_digit s = true -> lstrip s = s.
Proof.
  destruct s as [|c s]; cbn; [reflexivity|].
  intros H. apply andb_true_iff in H. destruct H as [Hc _].
  apply digit_plain in Hc. destruct Hc as [Hsp _]. now rewrite Hsp.
Qed.

Lemma rstrip_digits (s : string) : all_chars is_digit s = true -> rstrip s = s.
Proof.
  induction s as [|c s IH]; cbn; [reflexivity|].
  intros H. apply andb_true_iff in H. destruct H as [Hc Hs].
  rewrite IH by assumption. apply digit_plain in Hc. destruct Hc as [Hsp _].
  destruct s; [now rewrite Hsp | reflexivity].
Qed.

Lemma literal_digits_plain (s : string) :
  all_chars is_digit s = true -> literal_digits true s = Some s.
Proof.
  induction s as [|c s IH]; cbn; [reflexivity|].
  intros H. apply andb_true_iff in H. destruct H as [Hc Hs].
  rewrite Hc, IH by assumption.
  apply digit_plain in Hc. destruct Hc as (_ & _ & _ & _ & _ & Hu & _).
  now rewrite Hu.
Qed.

Lemma count_digits_unsigned (a : ascii) (s : string) :
  Ascii.eqb a "-" = false ->
  count_digits (String a s) = Z.of_nat (String.length (String a s)).
Proof.
  intros Ha. destruct a as [[] [] [] [] [] [] [] []]; try reflexivity.
  discriminate Ha.
Qed.

(** [int(str(c)) == c] for a positive count within the digit limit. *)
Lemma int_of_str_decimal (c : Z) :
  plain_count c ->
  str_of_int c = Ok (decimal_of_int c) /\ int_of_str (decimal_of_int c) = Ok c.
Proof.
  intros [Hpos Hlen]. destruct c as [|p|p]; try lia.
  pose proof (decimal_digits p) as Hdig.
  pose proof (decimal_nonempty p) as Hne.
  split.
  - unfold str_of_int. destruct (decimal_of_int (Zpos p)) as [|a s] eqn:E; [congruence|].
    cbn [all_chars] in Hdig. apply andb_true_iff in Hdig. destruct Hdig as [Ha _].
    apply digit_plain in Ha. destruct Ha as (_ & _ & _ & _ & _ & _ & Hminus & _).
    rewrite count_digits_unsigned by assumption.
    destruct (Z.ltb_spec int_max_str_digits (Z.of_nat (String.length (String a s))));
      [lia | reflexivity].
  - unfold int_of_str, strip.
    rewrite lstrip_digits, rstrip_digits by assumption.
    destruct (decimal_of_int (Zpos p)) as [|a s] eqn:E; [congruence|].
    pose proof Hdig as Hall.
    cbn [all_chars] in Hdig. apply andb_true_iff in Hdig. destruct Hdig as [Ha _].
    pose proof (digit_plain a Ha) as (_ & _ & _ & _ & _ & _ & Hminus & Hplus).
    assert (Hbody : match String a s with
                    | String "-" r => (true, r)
                    | String "+" r => (false, r)
                    | _ => (false, String a s)
                    end = (false, String a s)).
    { destruct a as [[] [] [] [] [] [] [] []]; try reflexivity;
        try discriminate Hminus; discriminate Hplus. }
    rewrite Hbody. rewrite Ha. cbn [negb].
    rewrite literal_digits_plain by assumption.
    destruct (Z.ltb_spec int_max_str_digits (Z.of_nat (String.length (String a s))));
      [lia|].
    rewrite <- E, decimal_of_pos, NilEmpty.usu.
    unfold N.of_uint. rewrite Unsigned.of_to. reflexivity.
Qed.

(** ** Text of the artifact and its lines *)

Lemma universal_newlines_id (s : string) :
  str_mem CR s = false -> universal_newlines s = s.
Proof.
  induction s as [|c s IH]; cbn; [reflexivity|].
  intros H. apply orb_false_iff in H. destruct H as [Hc Hs].
  rewrite Hc, IH by assumption. reflexivity.
Qed.

Lemma lines_from_line (body rest cur : string) :
  str_mem LF body = false ->
  lines_from cur (body ++ chr LF ++ rest) =
  (cur ++ body ++ chr LF)%string :: lines_from "" rest.
Proof.
  revert cur. induction body as [|c body IH]; intros cur Hbody.
  - reflexivity.
  - cbn [str_mem] in Hbody. apply orb_false_iff in Hbody. destruct Hbody as [Hc Hb].
    cbn [append lines_from]. rewrite Hc, IH by assumption.
    unfold chr. now rewrite append_assoc.
Qed.


Lemma entry_line_without (x : ascii) (entry : string * Z) :
  plain_count (snd entry) -> is_digit x = false ->
  Ascii.eqb COMMA x = false -> Ascii.eqb LF x = false ->
  str_mem x (fst entry) = false ->
  str_mem x (entry_line entry) = false.
Proof.
  intros [Hpos _] Hx Hcomma Hlf Htok. unfold entry_line.
  rewrite !str_mem_append, Htok. cbn [str_mem chr]. rewrite Hcomma, Hlf.
  destruct (snd entry) as [|p|p]; try lia.
  rewrite (digits_without x) by (auto using decimal_digits). reflexivity.
Qed.

Lemma entries_text_no_cr (entries : list (string * Z)) :
  Forall (fun entry => plain_count (snd entry) /\ str_mem CR (fst entry) = false) entries ->
  str_mem CR (entries_text entries) = false.
Proof.
  induction 1 as [|entry entries [Hc Hcr] _ IH]; [reflexivity|].
  cbn [entries_text]. rewrite str_mem_append, IH, orb_false_r.
  apply entry_line_without; try assumption; reflexivity.
Qed.


(** ** The reader on one line *)

(** The first character of an unquoted field. *)
Lemma start_plain_field (s : parser_state) (fs : list string) (c : ascii) :
  s = START_RECORD \/ s = START_FIELD ->
  Ascii.eqb c LF = false -> Ascii.eqb c CR = false ->
  Ascii.eqb c DQUOTE = false -> Ascii.eqb c COMMA = false ->
  parse_process_char (mk_reader s fs "") (Chr c) = Ok (mk_reader IN_FIELD fs (chr c)).
Proof.
  intros [-> | ->] Hlf Hcr Hdq Hcomma;
    cbn [parse_process_char state start_field is_newline set_state fields field];
    rewrite Hlf, Hcr; cbn [orb]; rewrite ?Hlf, ?Hcr; cbn [orb];
    rewrite Hdq, Hcomma; reflexivity.
Qed.

(** The further characters of an unquoted field. *)
Lemma in_plain_field (t rest f : string) (fs : list string) :
  str_mem LF t = false -> str_mem CR t = false -> str_mem COMMA t = false ->
  Z.of_nat (String.length f) + Z.of_nat (String.length t) <= field_limit ->
  parse_chars (mk_reader IN_FIELD fs f) (t ++ rest) =
  parse_chars (mk_reader IN_FIELD fs (f ++ t)) rest.
Proof.
  revert f. induction t as [|c t IH]; intros f Hlf Hcr Hcomma Hlen.
  - cbn. now rewrite append_nil_r.
  - cbn [str_mem] in Hlf, Hcr, Hcomma.
    apply orb_false_iff in Hlf, Hcr, Hcomma.
    destruct Hlf as [Hlf Hlf'], Hcr as [Hcr Hcr'], Hcomma as [Hcomma Hcomma'].
    cbn [String.length] in Hlen.
    cbn [append parse_chars parse_process_char state is_newline].
    rewrite Hlf, Hcr, Hcomma. cbn [orb]. unfold parse_add_char. cbn [field fields state].
    destruct (Z.leb_spec field_limit (Z.of_nat (String.length f))); [lia|].
    cbn [bind]. rewrite IH; try assumption.
    + unfold chr. now rewrite append_assoc.
    + rewrite length_append. cbn [String.length chr]. lia.
Qed.

(** A whole unquoted field up to the comma after it. *)
Lemma plain_field_comma (s : parser_state) (fs : list string) (t rest : string) :
  s = START_RECORD \/ s = START_FIELD ->
  str_mem LF t = false -> str_mem CR t = false -> str_mem COMMA t = false ->
  starts_with DQUOTE t = false -> Z.of_nat (String.length t) <= field_limit ->
  parse_chars (mk_reader s fs "") (t ++ String COMMA rest) =
  parse_chars (mk_reader START_FIELD (fs ++ [t]) "") rest.
Proof.
  intros Hs Hlf Hcr Hcomma Hdq Hlen. destruct t as [|c t].
  - destruct Hs as [-> | ->]; reflexivity.
  - cbn [str_mem starts_with] in *.
    apply orb_false_iff in Hlf, Hcr, Hcomma.
    destruct Hlf as [Hlf Hlf'], Hcr as [Hcr Hcr'], Hcomma as [Hcomma Hcomma'].
    cbn [append parse_chars]. rewrite start_plain_field by assumption.
    cbn [bind]. rewrite in_plain_field; try assumption.
    + reflexivity.
    + cbn [String.length chr] in *. lia.
Qed.

(** A whole unquoted field up to the end of its line. *)
Lemma plain_field_end (fs : list string) (t : string) :
  str_mem LF t = false -> str_mem CR t = false -> str_mem COMMA t = false ->
  starts_with DQUOTE t = false -> Z.of_nat (String.length t) <= field_limit ->
  (r <- parse_chars (mk_reader START_FIELD fs "") (t ++ chr LF) ;;
   parse_process_char r EOL)%py = Ok (mk_reader START_RECORD (fs ++ [t]) "").
Proof.
  intros Hlf Hcr Hcomma Hdq Hlen. destruct t as [|c t].
  - reflexivity.
  - cbn [str_mem starts_with] in *.
    apply orb_false_iff in Hlf, Hcr, Hcomma.
    destruct Hlf as [Hlf Hlf'], Hcr as [Hcr Hcr'], Hcomma as [Hcomma Hcomma'].
    cbn [append parse_chars].
    rewrite start_plain_field by (auto using or_intror).
    cbn [bind]. rewrite in_plain_field; try assumption.
    + reflexivity.
    + cbn [String.length chr] in *. lia.
Qed.

(** The line of a plain entry is read as its two fields. *)
Lemma parse_entry_line (tok : string) (c : Z) :
  plain_entry (tok, c) ->
  parse_line parse_reset (entry_line (tok, c)) =
  Ok (mk_reader START_RECORD [tok; decimal_of_int c] "").
Proof.
  intros [(Hcomma & Hlf & Hcr & Hdq & Hlen) [Hpos Hdigits]]. cbn [fst snd] in *.
  destruct c as [|p|p]; try lia.
  pose proof (decimal_digits p) as Hdig.
  unfold parse_line, parse_reset, entry_line. cbn [fst snd].
  change (chr COMMA ++ decimal_of_int (Z.pos p) ++ chr LF)%string
    with (String COMMA (decimal_of_int (Z.pos p) ++ chr LF)).
  rewrite plain_field_comma by auto.
  apply plain_field_end.
  - now apply digits_without.
  - now apply digits_without.
  - now apply digits_without.
  - destruct (decimal_of_int (Z.pos p)) as [|a s]; [reflexivity|].
    cbn [all_chars] in Hdig. apply andb_true_iff in Hdig. destruct Hdig as [Ha _].
    apply digit_plain in Ha. cbn [starts_with]. tauto.
  - unfold int_max_str_digits in Hdigits. unfold field_limit. lia.
Qed.




(** ** Beyond the limits *)










End CsvFacts.

(* ===================================================================== *)
(** * duplicate_fixer.py: facts about the geometry sanitizer               *)
(* ===================================================================== *)

Module ShapelyFacts.
Import Shapely SpecMore.

(** Induction over a geometry and, for a multi-part one, over its parts. *)
Lemma geom_induction (P : geom -> Prop) :
  (forall shell holes, P (Polygon shell holes)) ->
  (forall parts, Forall P parts -> P (MultiPolygon parts)) ->
  (forall parts, Forall P parts -> P (GeometryCollection parts)) ->
  (forall t, P (Other t)) ->
  forall g, P g.
Proof.
  intros Hpoly Hmulti Hcoll Hother.
  fix IH 1. intros [shell holes|parts|parts|t].
  - apply Hpoly.
  - apply Hmulti. induction parts as [|part parts IHparts]; constructor.
    + apply IH.
    + apply IHparts.
  - apply Hcoll. induction parts as [|part parts IHparts]; constructor.
    + apply IH.
    + apply IHparts.
  - apply Hother.
Qed.

(** What the loop over the parts appends. *)
Lemma parts_appended (parts : list geom) (geom_list : list geom) :
  Forall (fun part => forall l, append_polys part l = l ++ append_polys part []) parts ->
  fold_left (fun acc part => append_polys part acc) parts geom_list =
  geom_list ++ flat_map (fun part => append_polys part []) parts.
Proof.
  intros Hparts. revert geom_list.
  induction Hparts as [|part parts Hpart _ IH]; intros geom_list; cbn [fold_left flat_map].
  - now rewrite app_nil_r.
  - rewrite IH, Hpart, <- app_assoc. reflexivity.
Qed.

Lemma append_polys_after (g : geom) :
  forall geom_list, append_polys g geom_list = geom_list ++ append_polys g [].
Proof.
  induction g as [shell holes|parts IH|parts IH|t] using geom_induction;
    intros geom_list; cbn [append_polys].
  - destruct (negb (is_empty shell)); [reflexivity | now rewrite app_nil_r].
  - now rewrite !(parts_appended parts) by assumption.
  - now rewrite !(parts_appended parts) by assumption.
  - now rewrite app_nil_r.
Qed.

Lemma append_polys_parts (parts : list geom) :
  append_polys (MultiPolygon parts) [] = flat_map (fun part => append_polys part []) parts
  /\ append_polys (GeometryCollection parts) [] =
     flat_map (fun part => append_polys part []) parts.
Proof.
  cbn [append_polys]. rewrite parts_appended; [split; reflexivity|].
  apply Forall_forall. intros part _. apply append_polys_after.
Qed.

Lemma occurs_trans (p q g : geom) : occurs p q -> occurs q g -> occurs p g.
Proof.
  intros Hpq Hqg. induction Hqg as [|part parts Hin _ IH|part parts Hin _ IH].
  - assumption.
  - now apply occurs_multi with part.
  - now apply occurs_collection with part.
Qed.

Lemma append_polys_members (g : geom) (p : geom) :
  In p (append_polys g []) <-> solid_polygon p = true /\ occurs p g.
Proof.
  revert p.
  induction g as [shell holes|parts IH|parts IH|t] using geom_induction; intros p.
  - cbn [append_polys]. destruct (is_empty shell) eqn:Hempty; cbn [negb app]; split.
    + intros [].
    + intros [Hsolid Hocc]. inversion Hocc; subst. cbn in Hsolid.
      rewrite Hempty in Hsolid. discriminate.
    + intros [<-|[]]. split; [cbn; now rewrite Hempty | constructor].
    + intros [_ Hocc]. inversion Hocc; subst. now left.
  - destruct (append_polys_parts parts) as [-> _]. rewrite in_flat_map. split.
    + intros (part & Hin & Hp). rewrite Forall_forall in IH.
      apply (IH part Hin) in Hp. destruct Hp as [Hsolid Hocc].
      split; [assumption | now apply occurs_multi with part].
    + intros [Hsolid Hocc]. inversion Hocc as [Heq|part parts' Hin Hpart Heq|]; subst.
      * discriminate Hsolid.
      * exists part. split; [assumption|]. rewrite Forall_forall in IH.
        apply (IH part Hin). now split.
  - destruct (append_polys_parts parts) as [_ ->]. rewrite in_flat_map. split.
    + intros (part & Hin & Hp). rewrite Forall_forall in IH.
      apply (IH part Hin) in Hp. destruct Hp as [Hsolid Hocc].
      split; [assumption | now apply occurs_collection with part].
    + intros [Hsolid Hocc]. inversion Hocc as [Heq| |part parts' Hin Hpart Heq]; subst.
      * discriminate Hsolid.
      * exists part. split; [assumption|]. rewrite Forall_forall in IH.
        apply (IH part Hin). now split.
  - cbn [append_polys]. split; [intros []|].
    intros [Hsolid Hocc]. inversion Hocc; subst. discriminate Hsolid.
Qed.

(** X15. [append_polys] returns the list it was given followed by what the
    geometry contributes; a multi-part geometry contributes what its parts
    contribute, one after the other; and a geometry is contributed iff it
    is a non-empty polygon lying in the geometry at some depth. *)
Theorem append_polys_flattens (g : geom) :
  (forall geom_list, append_polys g geom_list = geom_list ++ append_polys g [])
  /\ (forall parts,
        append_polys (GeometryCollection parts) [] =
          flat_map (fun part => append_polys part []) parts
        /\ append_polys (MultiPolygon parts) [] =
             flat_map (fun part => append_polys part []) parts)
  /\ (forall p, In p (append_polys g []) <-> solid_polygon p = true /\ occurs p g).
Proof.
  split; [apply append_polys_after|].
  split; [intros parts; split; apply append_polys_parts|].
  intros p. apply append_polys_members.
Qed.

(** The pass over the mixed collection, started from a list holding the
    square, appends the triangle and the square. *)
Lemma append_polys_flattens_witness :
  append_polys ScenarioMore.mixed [ScenarioMore.square] =
    [ScenarioMore.square; ScenarioMore.triangle; ScenarioMore.square]
  /\ append_polys ScenarioMore.mixed [ScenarioMore.square] =
     [ScenarioMore.square] ++ append_polys ScenarioMore.mixed [].
Proof.
  split; [reflexivity|].
  exact (proj1 (append_polys_flattens ScenarioMore.mixed) [ScenarioMore.square]).
Defined.

Lemma append_polys_solid (g : geom) :
  Forall (fun p => solid_polygon p = true) (append_polys g []).
Proof.
  apply Forall_forall. intros p Hp.
  now apply append_polys_members in Hp.
Qed.

(** X16. [keep_only] always returns a polygon or a multi-polygon, and a
    second pass changes nothing. Polygons and multi-polygons come back as
    they are, empty ones too; a point or a line becomes the empty polygon;
    a collection becomes the multi-polygon of its non-empty polygons, which
    has no part when the collection holds none. *)
Theorem keep_only_polygonal (g : geom) :
  polygonal (keep_only g) = true
  /\ keep_only (keep_only g) = keep_only g
  /\ (polygonal g = true -> keep_only g = g)
  /\ (forall t, g = Other t -> keep_only g = Polygon [] [])
  /\ (forall parts, g = GeometryCollection parts ->
        exists polys,
          keep_only g = MultiPolygon polys
          /\ Forall (fun p => solid_polygon p = true) polys
          /\ (forall p, In p polys <-> solid_polygon p = true /\ occurs p g)
          /\ ((forall p, occurs p g -> solid_polygon p = false) -> polys = [])).
Proof.
  split; [destruct g; reflexivity|].
  split; [destruct g; reflexivity|].
  split; [destruct g; cbn; intros H; try reflexivity; discriminate H|].
  split; [intros t ->; reflexivity|].
  intros parts ->. exists (append_polys (GeometryCollection parts) []).
  split; [reflexivity|].
  split; [apply append_polys_solid|].
  split; [intros p; apply append_polys_members|].
  intros Hnone.
  destruct (append_polys (GeometryCollection parts) []) as [|p polys] eqn:E; [reflexivity|].
  assert (Hin : In p (append_polys (GeometryCollection parts) [])) by (rewrite E; now left).
  apply append_polys_members in Hin.
  destruct Hin as [Hsolid Hocc]. rewrite (Hnone p Hocc) in Hsolid. discriminate.
Qed.

(** The mixed collection is flattened to the triangle and the square. *)
Lemma keep_only_polygonal_witness :
  polygonal (MultiPolygon [ScenarioMore.triangle; ScenarioMore.square]) = true
  /\ keep_only ScenarioMore.mixed =
     MultiPolygon [ScenarioMore.triangle; ScenarioMore.square]
  /\ keep_only (MultiPolygon [ScenarioMore.triangle; ScenarioMore.square]) =
     MultiPolygon [ScenarioMore.triangle; ScenarioMore.square].
Proof.
  split; [reflexivity|]. split; [reflexivity|].
  apply (proj1 (proj2 (proj2 (keep_only_polygonal
           (MultiPolygon [ScenarioMore.triangle; ScenarioMore.square]))))).
  reflexivity.
Defined.

End ShapelyFacts.

(* ===================================================================== *)
(** * duplicate_finder.py: further facts on detection                      *)
(* ===================================================================== *)

Module DetectFacts.
Import Py Pg Finder Spec SpecMore PyFacts FinderFacts.

(** ** Progress notes of the scan *)

Lemma multiples_next (step : Z) (c : nat) :
  0 < step ->
  multiples step (S c) =
  if Z.of_nat (S c) mod step =? 0 then multiples step c ++ [Z.of_nat (S c)]
  else multiples step c.
Proof.
  intros Hstep. unfold multiples.
  pose proof (Z.div_mod (Z.of_nat (S c)) step ltac:(lia)) as Hdm.
  pose proof (Z.mod_pos_bound (Z.of_nat (S c)) step Hstep) as Hbound.
  assert (Hq : 0 <= Z.of_nat c / step) by (apply Z.div_pos; lia).
  destruct (Z.eqb_spec (Z.of_nat (S c) mod step) 0) as [Hzero|Hnonzero].
  - assert (Hdiv : Z.of_nat (S c) / step = Z.of_nat c / step + 1).
    { symmetry. apply Z.div_unique with (r := 0); [lia|].
      rewrite Hzero in Hdm.
      assert (Hprev : Z.of_nat c / step = Z.of_nat (S c) / step - 1).
      { symmetry. apply Z.div_unique with (r := step - 1); lia. }
      lia. }
    rewrite Hdiv, Z2Nat.inj_add, Nat.add_1_r, seq_S, map_app by lia.
    cbn [map]. do 2 f_equal. rewrite Nat2Z.inj_add, Z2Nat.id by lia.
    rewrite Hzero in Hdm. lia.
  - assert (Hdiv : Z.of_nat (S c) / step = Z.of_nat c / step).
    { apply Z.div_unique with (r := Z.of_nat (S c) mod step - 1); lia. }
    now rewrite Hdiv.
Qed.

Lemma scan_progress (ids : list string) (st : scan_state) (c : nat) :
  scan_count st = Z.of_nat c ->
  scan_log st = map Got (multiples HEX_ID_BATCH_SIZE c) ->
  let st' := fold_left scan_record ids st in
  scan_count st' = Z.of_nat (c + List.length ids)
  /\ scan_log st' = map Got (multiples HEX_ID_BATCH_SIZE (c + List.length ids)).
Proof.
  revert st c. induction ids as [|id ids IH]; intros st c Hcount Hlog.
  - cbn. rewrite Nat.add_0_r. auto.
  - cbn [fold_left List.length]. rewrite Nat.add_succ_r.
    apply (IH (scan_record st id) (S c)).
    + cbn. rewrite Hcount. lia.
    + cbn [scan_record scan_log]. rewrite Hcount, Hlog.
      replace (Z.of_nat c + 1) with (Z.of_nat (S c)) by lia.
      rewrite multiples_next by (unfold HEX_ID_BATCH_SIZE; lia).
      destruct (Z.of_nat (S c) mod HEX_ID_BATCH_SIZE =? 0); [|reflexivity].
      now rewrite map_app.
Qed.

(** X1. The scan counts every row and logs one progress note at each
    multiple of [HEX_ID_BATCH_SIZE] rows, carrying that number of rows, and
    no other note: a table of fewer than [HEX_ID_BATCH_SIZE] rows is scanned
    without a note. *)
Theorem get_hex_ids_progress (conn : connection) :
  let n := List.length (national_dataset conn) in
  scan_count (get_hex_ids_run conn) = Z.of_nat n
  /\ scan_log (get_hex_ids_run conn) = map Got (multiples HEX_ID_BATCH_SIZE n)
  /\ List.length (scan_log (get_hex_ids_run conn))
     = Z.to_nat (Z.of_nat n / HEX_ID_BATCH_SIZE)
  /\ (Z.of_nat n < HEX_ID_BATCH_SIZE -> scan_log (get_hex_ids_run conn) = []).
Proof.
  intros n.
  destruct (scan_progress (scan_hex_ids conn) (mk_scan [] 0 []) 0) as [Hcount Hlog];
    [reflexivity | reflexivity |].
  cbn zeta in Hcount, Hlog. unfold scan_hex_ids in Hcount, Hlog.
  rewrite length_map in Hcount, Hlog. cbn [Nat.add] in Hcount, Hlog.
  fold n in Hcount, Hlog.
  unfold get_hex_ids_run, scan_hex_ids.
  split; [exact Hcount|]. split; [exact Hlog|]. split.
  - rewrite Hlog. unfold multiples. now rewrite !length_map, length_seq.
  - intros Hsmall. rewrite Hlog. unfold multiples.
    rewrite Z.div_small by lia. reflexivity.
Qed.

(** A table of three rows is scanned without a note. *)
Lemma get_hex_ids_progress_witness :
  Z.of_nat (List.length (national_dataset Scenario.scan)) < HEX_ID_BATCH_SIZE
  /\ scan_log (get_hex_ids_run Scenario.scan) = [].
Proof.
  assert (H : Z.of_nat (List.length (national_dataset Scenario.scan)) < HEX_ID_BATCH_SIZE)
    by (cbn; unfold HEX_ID_BATCH_SIZE; lia).
  split; [exact H|].
  exact (proj2 (proj2 (proj2 (get_hex_ids_progress Scenario.scan))) H).
Defined.

(** ** The duplicate filter *)

Lemma visit_item_found (items : list (string * Z)) (st : dup_state) :
  duplicates_found st = Z.of_nat (List.length (duplicates st)) ->
  duplicates_found (fold_left visit_item items st)
  = Z.of_nat (List.length (duplicates (fold_left visit_item items st))).
Proof.
  revert st. induction items as [|[id c] items IH]; intros st Hst; [exact Hst|].
  cbn [fold_left]. apply IH. unfold visit_item.
  destruct (1 <? c); cbn; [|exact Hst].
  rewrite Hst, length_app. cbn. lia.
Qed.

Lemma duplicate_ids (d : dict Z) (id : string) :
  NoDup (dict_keys d) ->
  In id (map fst (find_duplicates d)) <-> 1 < dict_get d id 0.
Proof.
  intros Hkeys. rewrite find_duplicates_filter, in_map_iff. unfold dict_items. split.
  - intros ([k c] & Hk & Hin). cbn [fst] in Hk. subst k.
    apply filter_In in Hin. destruct Hin as [Hin Hc]. cbn [snd] in Hc.
    rewrite (dict_get_present _ _ _ 0 Hkeys Hin). lia.
  - intros Hgt. exists (id, dict_get d id 0). split; [reflexivity|].
    apply filter_In. split; [apply dict_get_In; lia | cbn [snd]; lia].
Qed.

Lemma NoDup_keys_filter (d : dict Z) (p : string * Z -> bool) :
  NoDup (dict_keys d) -> NoDup (dict_keys (filter p d)).
Proof.
  unfold dict_keys. induction d as [|[k v] d IH]; cbn; intros Hnd; [constructor|].
  inversion Hnd as [|? ? Hk Hnd']; subst.
  destruct (p (k, v)); cbn; [|now apply IH].
  constructor; [|now apply IH].
  intros Hin. apply Hk. apply in_map_iff in Hin. destruct Hin as (item & Hfst & Hitem).
  apply filter_In in Hitem. apply in_map_iff. exists item. tauto.
Qed.

(** X2. Every item [find_duplicates] returns has a count above 1 and comes
    from the mapping with its count unchanged; the number it counts as found
    is the number it returns; keys that were distinct stay distinct; a
    mapping without a count above 1 gives the empty list; and filtering the
    result again changes nothing. *)
Theorem find_duplicates_sound (d : dict Z) :
  Forall (fun item => 1 < snd item /\ In item (dict_items d)) (find_duplicates d)
  /\ duplicates_found (find_duplicates_run d) = Z.of_nat (List.length (find_duplicates d))
  /\ (List.length (find_duplicates d) <= List.length d)%nat
  /\ (NoDup (dict_keys d) -> NoDup (dict_keys (find_duplicates d)))
  /\ ((forall item, In item (dict_items d) -> snd item <= 1) -> find_duplicates d = [])
  /\ find_duplicates (find_duplicates d) = find_duplicates d.
Proof.
  split.
  { apply Forall_forall. intros item Hin. rewrite find_duplicates_filter in Hin.
    apply filter_In in Hin. destruct Hin as [Hin Hc]. split; [lia | exact Hin]. }
  split.
  { unfold find_duplicates, find_duplicates_run. now apply visit_item_found. }
  split.
  { rewrite find_duplicates_filter. apply filter_length_le. }
  split.
  { intros Hnd. rewrite find_duplicates_filter. now apply NoDup_keys_filter. }
  split.
  { intros Hlow. rewrite find_duplicates_filter. unfold dict_items in *.
    induction d as [|item d IH]; [reflexivity|]. cbn [filter].
    pose proof (Hlow item (or_introl eq_refl)) as Hitem.
    destruct (Z.ltb_spec 1 (snd item)); [lia|].
    apply IH. intros other Hother. apply Hlow. now right. }
  rewrite !find_duplicates_filter. unfold dict_items.
  rewrite filter_filter. apply filter_ext. intros item. apply andb_diag.
Qed.

(** The mapping A:3, B:1, C:2 keeps distinct keys. *)
Lemma find_duplicates_sound_witness :
  NoDup (dict_keys [("A", 3); ("B", 1); ("C", 2)])
  /\ NoDup (dict_keys (find_duplicates [("A", 3); ("B", 1); ("C", 2)])).
Proof.
  assert (H : NoDup (dict_keys [("A", 3); ("B", 1); ("C", 2)])).
  { cbn. repeat constructor; cbn; intuition discriminate. }
  split; [exact H|].
  exact (proj1 (proj2 (proj2 (proj2 (find_duplicates_sound _)))) H).
Defined.

End DetectFacts.

(* ===================================================================== *)
(** * duplicate_finder.py: further facts on the batched fetch              *)
(* ===================================================================== *)

Module FetchMore.
Import Py Pg Finder Spec SpecMore PyFacts FinderFacts FetchFacts DetectFacts.

Lemma rows_with_id_In (conn : connection) (ids : list string) (r : db_row) :
  In r (rows_with_id conn ids) <-> In r (national_dataset conn) /\ In (row_hex_id r) ids.
Proof. unfold rows_with_id. now rewrite filter_In, member_In. Qed.

Lemma get_rows_names (size : Z) (conn : connection) (hex_ids : list string)
    (st : fetch_state) :
  0 < size -> get_rows_run size conn hex_ids = Ok st ->
  colnames st = match hex_ids with [] => None | _ :: _ => Some (description conn) end.
Proof.
  intros Hsize Hrun. unfold get_rows_run in Hrun.
  destruct (batched_ok hex_ids (Z.to_nat size)) as (batches & Hb & Hcat & Hne); [lia|].
  rewrite Hb in Hrun. cbn [bind] in Hrun.
  apply fetch_batches_inv in Hrun. destruct Hrun as [_ Hnames]. rewrite Hnames.
  destruct batches as [|batch batches]; cbn [List.concat] in Hcat.
  - now subst hex_ids.
  - inversion Hne as [|? ? Hbatch _]; subst.
    destruct (batch ++ List.concat batches) eqn:E; [|reflexivity].
    apply app_eq_nil in E. destruct E as [E _]. contradiction.
Qed.

(** X3. For distinct ids that hold no single quote the fetch returns,
    whatever the positive batch size: the column names of the table (none
    when no id is asked for) and, in some order, the rows of the table whose
    [hex_id] is asked for, each as often as the table holds it. Two batch
    sizes give the same rows up to their order. *)
Theorem get_rows_quote_free_ids (batch_size batch_size' : Z) (conn : connection)
    (hex_ids : list string)
    (Hsize : 0 < batch_size) (Hsize' : 0 < batch_size')
    (Hfree : quote_free hex_ids) (Hdistinct : NoDup hex_ids) :
  exists rows rows',
    get_rows_by_hex_id_sized batch_size conn hex_ids =
      Ok (match hex_ids with [] => None | _ :: _ => Some (description conn) end, rows)
    /\ Permutation rows (rows_with_id conn hex_ids)
    /\ (forall r, In r rows <-> In r (national_dataset conn) /\ In (row_hex_id r) hex_ids)
    /\ get_rows_by_hex_id_sized batch_size' conn hex_ids =
         Ok (match hex_ids with [] => None | _ :: _ => Some (description conn) end, rows')
    /\ Permutation rows rows'.
Proof.
  destruct (get_rows_quote_free batch_size conn hex_ids Hsize Hfree)
    as (batches & st & Hb & Hcat & Hrun & Hrows & Hexec & Hnames & Hperm).
  destruct (get_rows_quote_free batch_size' conn hex_ids Hsize' Hfree)
    as (batches' & st' & Hb' & Hcat' & Hrun' & Hrows' & Hexec' & Hnames' & Hperm').
  exists (rows st), (rows st').
  unfold get_rows_by_hex_id_sized. rewrite Hrun, Hrun'. cbn [bind].
  pose proof (get_rows_names _ _ _ _ Hsize Hrun) as Hst.
  pose proof (get_rows_names _ _ _ _ Hsize' Hrun') as Hst'.
  rewrite Hst, Hst'.
  split; [reflexivity|]. split; [now apply Hperm|]. split.
  - intros r. rewrite <- rows_with_id_In. split; intros Hr.
    + now apply (Permutation_in r (Hperm Hdistinct)).
    + now apply (Permutation_in r (Permutation_sym (Hperm Hdistinct))).
  - split; [reflexivity|].
    apply Permutation_trans with (rows_with_id conn hex_ids);
      [now apply Hperm | apply Permutation_sym; now apply Hperm'].
Qed.

(** The ids A and C over the scan A, A, B, A, C, C, one and two per batch. *)
Lemma get_rows_quote_free_ids_witness :
  (0 < 1 /\ 0 < 2 /\ quote_free ["A"; "C"] /\ NoDup ["A"; "C"])
  /\ exists rows rows',
       get_rows_by_hex_id_sized 1 Scenario.scan ["A"; "C"] =
         Ok (Some ["hex_id"; "geom"], rows)
       /\ Permutation rows (rows_with_id Scenario.scan ["A"; "C"])
       /\ get_rows_by_hex_id_sized 2 Scenario.scan ["A"; "C"] =
            Ok (Some ["hex_id"; "geom"], rows')
       /\ Permutation rows rows'.
Proof.
  assert (Hfree : quote_free ["A"; "C"]).
  { intros id [<-|[<-|[]]]; reflexivity. }
  assert (Hnd : NoDup ["A"; "C"]).
  { repeat constructor; cbn; intuition discriminate. }
  split; [repeat split; try lia; assumption|].
  destruct (get_rows_quote_free_ids 1 2 Scenario.scan ["A"; "C"]
              ltac:(lia) ltac:(lia) Hfree Hnd)
    as (rows & rows' & H1 & H2 & _ & H3 & H4).
  exists rows, rows'. repeat split; assumption.
Defined.

(** ** How many queries *)

Lemma batched_rounds_sizes {A} (rounds n : nat) (l : list A) :
  (0 < n)%nat ->
  Forall (fun batch => (1 <= List.length batch <= n)%nat) (batched_rounds rounds n l).
Proof.
  intros Hn. revert l. induction rounds as [|rounds IH]; intros l; [constructor|].
  destruct l as [|x l]; [constructor|].
  cbn [batched_rounds]. constructor; [|apply IH].
  rewrite length_firstn. cbn [List.length]. lia.
Qed.

Lemma batched_rounds_length {A} (rounds n : nat) (l : list A) :
  (0 < n)%nat -> (List.length l <= rounds)%nat ->
  List.length (batched_rounds rounds n l) = ((List.length l + n - 1) / n)%nat.
Proof.
  intros Hn. revert l. induction rounds as [|rounds IH]; intros l Hlen.
  - destruct l; [|cbn in Hlen; lia]. cbn. symmetry. apply Nat.div_small. lia.
  - destruct l as [|x l].
    + cbn. symmetry. apply Nat.div_small. lia.
    + cbn [batched_rounds List.length]. rewrite IH
        by (rewrite length_skipn; cbn [List.length] in *; lia).
      rewrite length_skipn. cbn [List.length].
      destruct (Nat.le_gt_cases (S (List.length l)) n) as [Hle|Hgt].
      * replace (S (List.length l) - n + n - 1)%nat with (n - 1)%nat by lia.
        rewrite Nat.div_small by lia.
        apply Nat.div_unique with (r := List.length l); lia.
      * replace (S (List.length l) + n - 1)%nat
          with ((S (List.length l) - n + n - 1) + 1 * n)%nat by lia.
        rewrite Nat.div_add by lia. lia.
Qed.

(** X4. For ids that hold no single quote the fetch sends one query per
    batch, in the order of the ids: each batch holds at least one id and at
    most [batch_size], the batches put end to end are the ids, and the
    number of queries is the number of ids divided by the batch size,
    rounded up. *)
Theorem get_rows_queries (batch_size : Z) (conn : connection) (hex_ids : list string)
    (Hsize : 0 < batch_size) (Hfree : quote_free hex_ids) :
  exists st batches,
    get_rows_run batch_size conn hex_ids = Ok st
    /\ executed st = map build_query batches
    /\ List.concat batches = hex_ids
    /\ Forall (fun batch => 1 <= Z.of_nat (List.length batch) <= batch_size) batches
    /\ Z.of_nat (List.length (executed st))
       = (Z.of_nat (List.length hex_ids) + batch_size - 1) / batch_size.
Proof.
  destruct (get_rows_quote_free batch_size conn hex_ids Hsize Hfree)
    as (batches & st & Hb & Hcat & Hrun & _ & Hexec & _).
  exists st, batches.
  assert (Hbatches : batches = batched_rounds (List.length hex_ids) (Z.to_nat batch_size) hex_ids).
  { unfold batched in Hb. destruct (Z.to_nat batch_size) eqn:E; [lia|].
    now injection Hb as <-. }
  split; [exact Hrun|]. split; [exact Hexec|]. split; [exact Hcat|]. split.
  - rewrite Hbatches.
    pose proof (batched_rounds_sizes (List.length hex_ids) (Z.to_nat batch_size) hex_ids
                  ltac:(lia)) as Hsizes.
    apply (Forall_impl _ (P := fun batch =>
             (1 <= List.length batch <= Z.to_nat batch_size)%nat)); [|exact Hsizes].
    intros batch Hbatch. lia.
  - rewrite Hexec, length_map, Hbatches, batched_rounds_length by lia.
    rewrite Nat2Z.inj_div, Nat2Z.inj_sub, Nat2Z.inj_add, Z2Nat.id by lia.
    reflexivity.
Qed.

(** Three ids in batches of two: two queries. *)
Lemma get_rows_queries_witness :
  (0 < 2 /\ quote_free ["A"; "B"; "C"])
  /\ exists st,
       get_rows_run 2 Scenario.scan ["A"; "B"; "C"] = Ok st
       /\ executed st = [build_query ["A"; "B"]; build_query ["C"]].
Proof.
  assert (Hfree : quote_free ["A"; "B"; "C"]).
  { intros id [<-|[<-|[<-|[]]]]; reflexivity. }
  split; [split; [lia | exact Hfree]|].
  destruct (get_rows_queries 2 Scenario.scan ["A"; "B"; "C"] ltac:(lia) Hfree)
    as (st & batches & Hrun & Hexec & _).
  exists st. split; [exact Hrun|].
  cbv in Hrun. injection Hrun as <-. reflexivity.
Defined.

(** ** From the scan to the rows *)

Lemma count_occ_filter (ids : list string) (k : string) :
  List.length (filter (fun x => String.eqb x k) ids) = count_occ string_dec ids k.
Proof.
  induction ids as [|x ids IH]; cbn [filter count_occ]; [reflexivity|].
  destruct (string_dec x k) as [->|Hne].
  - rewrite String.eqb_refl. cbn. now rewrite IH.
  - apply String.eqb_neq in Hne. now rewrite Hne.
Qed.

(** The entries bearing one of several distinct keys are counted key by key. *)
Lemma members_counted (keys ids : list string) :
  NoDup keys ->
  List.length (filter (fun x => member keys x) ids)
  = list_sum (map (count_occ string_dec ids) keys).
Proof.
  induction 1 as [|k keys Hk _ IH]; cbn [map list_sum fold_right].
  - induction ids; [reflexivity | assumption].
  - fold (list_sum (map (count_occ string_dec ids) keys)).
    rewrite <- IH, <- count_occ_filter, <- length_app.
    apply Permutation_length. apply Permutation_sym.
    rewrite (filter_ext (fun x => member (k :: keys) x)
               (fun x => String.eqb x k || member keys x)) by reflexivity.
    apply filter_either. intros x Hx. apply String.eqb_eq in Hx. subst x.
    destruct (member keys k) eqn:E; [|reflexivity].
    apply member_In in E. contradiction.
Qed.

Lemma filter_map_length {A B} (f : A -> B) (p : B -> bool) (l : list A) :
  List.length (filter (fun x => p (f x)) l) = List.length (filter p (map f l)).
Proof.
  induction l as [|x l IH]; cbn [filter map]; [reflexivity|].
  destruct (p (f x)); cbn [List.length]; now rewrite IH.
Qed.

Lemma sum_counts (ids : list string) (items : list (string * Z)) :
  (forall item, In item items -> snd item = occurrences ids (fst item)) ->
  sum (map snd items) = Z.of_nat (list_sum (map (count_occ string_dec ids) (map fst items))).
Proof.
  induction items as [|item items IH]; intros Hitems; [reflexivity|].
  cbn [map sum fold_right list_sum]. fold (sum (map snd items)).
  fold (list_sum (map (count_occ string_dec ids) (map fst items))).
  rewrite IH, (Hitems item) by (intros; auto using in_eq, in_cons).
  unfold occurrences. lia.
Qed.

(** X6. Detection and fetch composed: over a table whose ids hold no single
    quote, fetching the ids that [find_duplicates] finds in the scan returns
    exactly the rows of the table whose [hex_id] occurs more than once, each
    once, in some order; their number is the sum of the counts found. The
    column names are missing exactly when there is no duplicate. *)
Theorem duplicate_rows_fetched (conn : connection)
    (Hfree : quote_free (scan_hex_ids conn)) :
  let found := find_duplicates (get_hex_ids conn) in
  exists rows,
    get_rows_by_hex_id conn (map fst found) =
      Ok (match found with [] => None | _ :: _ => Some (description conn) end, rows)
    /\ Permutation rows
         (filter (fun r => 1 <? occurrences (scan_hex_ids conn) (row_hex_id r))
                 (national_dataset conn))
    /\ Z.of_nat (List.length rows) = sum (map snd found).
Proof.
  intros found.
  assert (Hkeys : NoDup (dict_keys (get_hex_ids conn))).
  { rewrite get_hex_ids_keys. apply first_occurrences_NoDup. }
  assert (Hdistinct : NoDup (map fst found)).
  { unfold found. rewrite find_duplicates_filter. now apply NoDup_keys_filter. }
  assert (Hsub : quote_free (map fst found)).
  { intros id Hid. apply Hfree. apply (duplicate_ids _ _ Hkeys) in Hid.
    rewrite get_hex_ids_get in Hid. unfold occurrences in Hid.
    apply (count_occ_In string_dec). lia. }
  destruct (get_rows_quote_free ROWS_BATCH_SIZE conn (map fst found)
              ltac:(unfold ROWS_BATCH_SIZE; lia) Hsub)
    as (batches & st & _ & _ & Hrun & _ & _ & _ & Hperm).
  specialize (Hperm Hdistinct).
  pose proof (get_rows_names ROWS_BATCH_SIZE _ _ _ ltac:(unfold ROWS_BATCH_SIZE; lia) Hrun)
    as Hnames.
  exists (rows st).
  unfold get_rows_by_hex_id, get_rows_by_hex_id_sized. rewrite Hrun. cbn [bind].
  split; [|split].
  - rewrite Hnames. destruct found; reflexivity.
  - apply Permutation_trans with (1 := Hperm). unfold rows_with_id.
    rewrite (filter_ext (fun r => member (map fst found) (row_hex_id r))
               (fun r => 1 <? occurrences (scan_hex_ids conn) (row_hex_id r)));
      [apply Permutation_refl|].
    intros r. rewrite <- get_hex_ids_get.
    destruct (member (map fst found) (row_hex_id r)) eqn:E.
    + apply member_In, (duplicate_ids _ _ Hkeys) in E. symmetry. now apply Z.ltb_lt.
    + symmetry. apply Z.ltb_ge. destruct (Z.le_gt_cases (dict_get (get_hex_ids conn) (row_hex_id r) 0) 1) as [Hle|Hgt]; [exact Hle|].
      apply (duplicate_ids _ _ Hkeys), member_In in Hgt. unfold found in E. congruence.
  - rewrite (Permutation_length Hperm). unfold rows_with_id.
    rewrite (filter_map_length row_hex_id (member (map fst found))).
    fold (scan_hex_ids conn).
    rewrite members_counted by assumption.
    symmetry. apply sum_counts. intros [k c] Hin. cbn [fst snd].
    unfold found in Hin. rewrite find_duplicates_filter in Hin.
    apply filter_In in Hin. destruct Hin as [Hin _].
    rewrite <- get_hex_ids_get. symmetry. now apply dict_get_present.
Qed.

(** The scan A, A, B, A, C, C: the five rows of A and C are fetched. *)
Lemma duplicate_rows_fetched_witness :
  quote_free (scan_hex_ids Scenario.scan)
  /\ exists rows,
       get_rows_by_hex_id Scenario.scan ["A"; "C"] = Ok (Some ["hex_id"; "geom"], rows)
       /\ Z.of_nat (List.length rows) = 5.
Proof.
  assert (Hfree : quote_free (scan_hex_ids Scenario.scan)).
  { intros id Hid. cbn in Hid.
    repeat (destruct Hid as [<-|Hid]; [reflexivity|]). contradiction. }
  split; [exact Hfree|].
  destruct (duplicate_rows_fetched Scenario.scan Hfree) as (rows & Hrows & _ & Hlen).
  exists rows. split; [exact Hrows | exact Hlen].
Defined.

End FetchMore.

(* ===================================================================== *)
(** * duplicate_finder.py: reading the artifact, and main                  *)
(* ===================================================================== *)

Module MainFacts.
Import Py Pg Finder FinderMain Spec SpecMore.
Import PyFacts FinderFacts FetchFacts CsvFacts DetectFacts FetchMore.

(** ** Lines after the entries *)

Lemma entries_then_lines (entries : list (string * Z)) (rest : string) :
  Forall plain_entry entries ->
  lines_from "" (entries_text entries ++ rest) = map entry_line entries ++ lines_from "" rest.
Proof.
  induction 1 as [|[tok c] entries Hentry _ IH]; [reflexivity|].
  cbn [entries_text map app]. unfold entry_line at 1. cbn [fst snd].
  replace (((tok ++ chr COMMA ++ decimal_of_int c ++ chr LF) ++ entries_text entries) ++ rest)%string
    with ((tok ++ chr COMMA ++ decimal_of_int c) ++ chr LF ++ entries_text entries ++ rest)%string
    by (now rewrite !append_assoc).
  rewrite lines_from_line, IH.
  - unfold entry_line. cbn [fst snd append]. now rewrite !append_assoc.
  - destruct Hentry as [(_ & Hlf & _) [Hpos _]]. cbn [fst snd] in *.
    rewrite !str_mem_append, Hlf. cbn [str_mem chr].
    destruct c as [|p|p]; try lia.
    rewrite (digits_without LF) by (auto using decimal_digits). reflexivity.
Qed.

Lemma entries_then_rows (entries acc : list (string * Z)) (more : list string) :
  Forall plain_entry entries ->
  for_each_row read_pair parse_reset (map entry_line entries ++ more) acc =
  for_each_row read_pair parse_reset more (acc ++ entries).
Proof.
  intros Hall. revert acc. induction Hall as [|[tok c] entries Hentry _ IH]; intros acc.
  - cbn. now rewrite app_nil_r.
  - cbn [map app for_each_row]. rewrite parse_entry_line by assumption.
    cbn [bind state fields]. unfold read_pair at 1. cbn [getitem nth_error bind].
    destruct Hentry as [_ Hc]. cbn [snd] in Hc.
    destruct (int_of_str_decimal c Hc) as [_ Hint]. rewrite Hint. cbn [bind].
    rewrite IH, <- app_assoc. reflexivity.
Qed.

Lemma plain_entries_no_cr (entries : list (string * Z)) :
  Forall plain_entry entries -> str_mem CR (entries_text entries) = false.
Proof.
  intros Hplain. apply entries_text_no_cr.
  apply (Forall_impl _ (fun entry H =>
           conj (proj2 H) (proj1 (proj2 (proj2 (proj1 H))))) Hplain).
Qed.

(** The file as written is read back; what follows the entries is read
    after them. *)
Lemma read_after_entries (fs : filesystem) (filename : string)
    (entries : list (string * Z)) (rest : string) :
  Forall plain_entry entries -> str_mem CR rest = false ->
  fs filename = Some (entries_text entries ++ rest)%string ->
  read_pairs_csv fs filename =
  for_each_row read_pair parse_reset (lines_from "" rest) entries.
Proof.
  intros Hplain Hrest Hfile. unfold read_pairs_csv, file_lines. rewrite Hfile. cbn [bind].
  rewrite universal_newlines_id
    by (rewrite str_mem_append, plain_entries_no_cr, Hrest; auto).
  now rewrite entries_then_lines, entries_then_rows.
Qed.

Lemma read_entries_text (fs : filesystem) (filename : string)
    (entries : list (string * Z)) :
  Forall plain_entry entries -> fs filename = Some (entries_text entries) ->
  read_pairs_csv fs filename = Ok entries.
Proof.
  intros Hplain Hfile.
  rewrite (read_after_entries fs filename entries "") by (rewrite ?append_nil_r; auto).
  reflexivity.
Qed.



Lemma plain_token_no_cr (tok : string) : plain_token tok -> str_mem CR tok = false.
Proof. intros (_ & _ & H & _). exact H. Qed.



(** ** main *)

Lemma list_index_absent (x : string) (names : list string) :
  ~ In x names -> list_index x names = Raise ValueError.
Proof.
  induction names as [|y names IH]; cbn; intros Hx; [reflexivity|].
  destruct (String.eqb_spec y x) as [->|_]; [tauto|].
  rewrite IH by tauto. reflexivity.
Qed.

Lemma list_index_present (x : string) (names : list string) :
  In x names -> exists i, list_index x names = Ok i /\ nth_error names i = Some x.
Proof.
  induction names as [|y names IH]; cbn; intros Hx; [contradiction|].
  destruct (String.eqb_spec y x) as [->|Hne].
  - exists 0%nat. split; reflexivity.
  - destruct Hx as [Heq|Hx]; [congruence|].
    destruct (IH Hx) as (i & Hi & Hnth). exists (S i). rewrite Hi. split; [reflexivity | exact Hnth].
Qed.

(** X8. How [main] fails. When the connection fails it exits with status
    1. Without the cached flag it always raises [TypeError], whatever the
    table and the files: after the scan, [write_pairs_csv] is called with
    the items as its one argument, for the two parameters [filename] and
    [items], and the call writes no file. With the flag it raises
    [FileNotFoundError] when the duplicate-id file is missing,
    [AttributeError] when the file is empty, and [ValueError] when the table
    has no [geom] column. *)
Theorem main_failures (conn : connection) (fs : filesystem) :
  (forall cached, main None cached fs = Failed (SystemExit 1))
  /\ (forall items, call_write_pairs_csv fs [ArgItems items] = Raise TypeError)
  /\ main (Some conn) false fs = Failed (Raised TypeError)
  /\ (fs "duplicate_hex_ids.csv" = None ->
      main (Some conn) true fs = Failed (Raised FileNotFoundError))
  /\ (fs "duplicate_hex_ids.csv" = Some "" ->
      main (Some conn) true fs = Failed (Raised AttributeError))
  /\ (forall entries,
        Forall plain_entry entries -> entries <> [] ->
        fs "duplicate_hex_ids.csv" = Some (entries_text entries) ->
        quote_free (map fst entries) -> ~ In "geom" (description conn) ->
        main (Some conn) true fs = Failed (Raised ValueError)).
Proof.
  split; [reflexivity|]. split; [reflexivity|]. split; [reflexivity|].
  split; [|split].
  - intros Hfile. unfold main, read_pairs_csv, file_lines. now rewrite Hfile.
  - intros Hfile. unfold main, read_pairs_csv, file_lines. rewrite Hfile. reflexivity.
  - intros entries Hplain Hne Hfile Hfree Hgeom. unfold main.
    rewrite (read_entries_text _ _ entries) by assumption.
    unfold main_fetch, get_rows_by_hex_id, get_rows_by_hex_id_sized.
    destruct (get_rows_quote_free ROWS_BATCH_SIZE conn (map fst entries)
                ltac:(unfold ROWS_BATCH_SIZE; lia) Hfree)
      as (batches & st & _ & _ & Hrun & _ & _ & Hnames & _).
    rewrite Hrun. cbn [bind]. rewrite Hnames by (destruct entries; [congruence | discriminate]).
    rewrite list_index_absent by assumption. reflexivity.
Qed.

(** A missing file, and a table without a [geom] column. *)
Lemma main_failures_witness :
  (Scenario.no_files "duplicate_hex_ids.csv" = None
   /\ Forall plain_entry [("A", 3); ("C", 2)]
   /\ ~ In "geom" (description ScenarioMore.no_geom))
  /\ main (Some Scenario.scan) true Scenario.no_files = Failed (Raised FileNotFoundError)
  /\ main (Some ScenarioMore.no_geom) true ScenarioMore.cached_file
     = Failed (Raised ValueError).
Proof.
  assert (Hplain : Forall plain_entry [("A", 3); ("C", 2)]).
  { repeat constructor; cbn; unfold field_limit, int_max_str_digits; lia. }
  assert (Hgeom : ~ In "geom" (description ScenarioMore.no_geom)).
  { cbn. intros [H|[]]. discriminate. }
  split; [split; [reflexivity | split; [exact Hplain | exact Hgeom]]|].
  split.
  - exact (proj1 (proj2 (proj2 (proj2 (main_failures Scenario.scan Scenario.no_files))))
             eq_refl).
  - apply (proj2 (proj2 (proj2 (proj2 (proj2
             (main_failures ScenarioMore.no_geom ScenarioMore.cached_file)))))
             [("A", 3); ("C", 2)]); auto.
    + discriminate.
    + intros id [<-|[<-|[]]]; reflexivity.
Defined.

(** X9. With the cached flag, a duplicate-id file of well-formed entries
    whose ids are distinct and hold no single quote, and a table with a
    [geom] column: [main] reaches the geometry conversion with the position
    of that column and, in some order, exactly the rows of the table whose
    [hex_id] is listed in the file. *)
Theorem main_cached (conn : connection) (fs : filesystem) (entries : list (string * Z))
    (Hplain : Forall plain_entry entries) (Hsome : entries <> [])
    (Hfile : fs "duplicate_hex_ids.csv" = Some (entries_text entries))
    (Hfree : quote_free (map fst entries)) (Hdistinct : NoDup (map fst entries))
    (Hgeom : In "geom" (description conn)) :
  exists geom_idx rows,
    main (Some conn) true fs = Fetched geom_idx rows
    /\ nth_error (description conn) geom_idx = Some "geom"
    /\ Permutation rows (rows_with_id conn (map fst entries)).
Proof.
  destruct (list_index_present _ _ Hgeom) as (geom_idx & Hidx & Hnth).
  destruct (get_rows_quote_free ROWS_BATCH_SIZE conn (map fst entries)
              ltac:(unfold ROWS_BATCH_SIZE; lia) Hfree)
    as (batches & st & _ & _ & Hrun & _ & _ & Hnames & Hperm).
  exists geom_idx, (rows st). split; [|split; [exact Hnth | now apply Hperm]].
  unfold main. rewrite (read_entries_text _ _ entries) by assumption.
  unfold main_fetch, get_rows_by_hex_id, get_rows_by_hex_id_sized.
  rewrite Hrun. cbn [bind]. rewrite Hnames by (destruct entries; [congruence | discriminate]).
  rewrite Hidx. reflexivity.
Qed.

(** The file with (A, 3) and (C, 2) over the scan A, A, B, A, C, C. *)
Lemma main_cached_witness :
  (Forall plain_entry [("A", 3); ("C", 2)]
   /\ ScenarioMore.cached_file "duplicate_hex_ids.csv" = Some (entries_text [("A", 3); ("C", 2)])
   /\ In "geom" (description Scenario.scan))
  /\ exists rows,
       main (Some Scenario.scan) true ScenarioMore.cached_file = Fetched 1 rows
       /\ Permutation rows (rows_with_id Scenario.scan ["A"; "C"]).
Proof.
  assert (Hplain : Forall plain_entry [("A", 3); ("C", 2)]).
  { repeat constructor; cbn; unfold field_limit, int_max_str_digits; lia. }
  assert (Hgeom : In "geom" (description Scenario.scan)) by (cbn; auto).
  split; [repeat split; auto|].
  destruct (main_cached Scenario.scan ScenarioMore.cached_file [("A", 3); ("C", 2)])
    as (geom_idx & rows & Hmain & Hnth & Hperm); auto.
  - discriminate.
  - intros id [<-|[<-|[]]]; reflexivity.
  - repeat constructor; cbn; intuition discriminate.
  - exists rows. split; [|exact Hperm].
    rewrite Hmain. f_equal.
    destruct geom_idx as [|[|[|n]]]; cbn in Hnth; try discriminate; reflexivity.
Defined.

End MainFacts.

(* ===================================================================== *)
(** * duplicate_fixer.py: the resolution loop and main                     *)
(* ===================================================================== *)

Module ResolveFacts.
Import Py Fixer Spec SpecMore PyFacts FixerFacts.

(** ** Grouping *)

Lemma existsb_eqb (k : string) (seen : list string) :
  existsb (String.eqb k) seen = true <-> In k seen.
Proof.
  rewrite existsb_exists. split.
  - intros (x & Hx & E). apply String.eqb_eq in E. now subst.
  - intros H. exists k. split; [assumption | apply String.eqb_refl].
Qed.

Lemma unique_from_In (seen keys : list string) (k : string) :
  In k (Pandas.unique_from seen keys) <-> In k keys /\ ~ In k seen.
Proof.
  revert seen. induction keys as [|x keys IH]; intros seen; cbn [Pandas.unique_from].
  - cbn. tauto.
  - destruct (existsb (String.eqb x) seen) eqn:E.
    + apply existsb_eqb in E. rewrite IH. cbn [In]. split; [tauto|].
      intros [[->|H] Hn]; tauto.
    + assert (Hx : ~ In x seen) by (intros H; apply existsb_eqb in H; congruence).
      cbn [In]. rewrite IH. cbn [In]. split.
      * intros [<-|[H1 H2]]; tauto.
      * intros [[->|H1] H2]; [tauto|].
        destruct (string_dec x k); [tauto|]. right. tauto.
Qed.

Lemma unique_from_NoDup (seen keys : list string) :
  NoDup (Pandas.unique_from seen keys).
Proof.
  revert seen. induction keys as [|x keys IH]; intros seen; cbn [Pandas.unique_from].
  - constructor.
  - destruct (existsb (String.eqb x) seen); [apply IH|].
    constructor; [|apply IH]. rewrite unique_from_In. cbn [In]. tauto.
Qed.

Section GroupBy.
Context {R : Type} (key : R -> string).

Lemma group_keys_In (frame : list R) (k : string) :
  In k (Pandas.group_keys key frame) <-> In k (map key frame).
Proof.
  unfold Pandas.group_keys, Pandas.unique.
  pose proof (Pandas.StringSort.Permuted_sort (Pandas.unique_from [] (map key frame))) as Hp.
  split.
  - intros H. apply (Permutation_in _ (Permutation_sym Hp)) in H.
    now apply unique_from_In in H.
  - intros H. apply (Permutation_in _ Hp). apply unique_from_In. split; [assumption | tauto].
Qed.

Lemma group_keys_NoDup (frame : list R) : NoDup (Pandas.group_keys key frame).
Proof.
  unfold Pandas.group_keys, Pandas.unique.
  apply (Permutation_NoDup (Pandas.StringSort.Permuted_sort _)), unique_from_NoDup.
Qed.

Lemma group_keys_ascending (frame : list R) : ascending (Pandas.group_keys key frame).
Proof.
  pose proof (group_keys_NoDup frame) as Hnd.
  unfold Pandas.group_keys in *.
  pose proof (Pandas.StringSort.Sorted_sort (Pandas.unique (map key frame))) as Hs.
  unfold ascending.
  induction Hs as [|k keys Hs IH Hhd]; constructor.
  - apply IH. now inversion Hnd.
  - destruct Hhd as [|next keys Hle]; constructor.
    inversion Hnd as [|? ? Hk _]; subst.
    unfold Pandas.StringOrder.leb, is_true, String.leb in Hle. unfold String.ltb.
    destruct (String.compare k next) eqn:E; [|reflexivity|discriminate].
    apply String.compare_eq_iff in E. subst. exfalso. apply Hk. now left.
Qed.

Lemma groupby_keys (frame : list R) :
  map fst (Pandas.groupby key frame) = Pandas.group_keys key frame.
Proof. unfold Pandas.groupby. rewrite map_map. cbn [fst]. apply map_id. Qed.

(** A group holds the rows of its key, and at least one. *)
Lemma groupby_groups (frame : list R) :
  Forall (fun g => snd g = filter (fun r => String.eqb (key r) (fst g)) frame /\ snd g <> [])
         (Pandas.groupby key frame).
Proof.
  unfold Pandas.groupby. apply Forall_forall. intros g Hg.
  apply in_map_iff in Hg. destruct Hg as (k & <- & Hk). cbn [fst snd].
  split; [reflexivity|].
  apply group_keys_In, in_map_iff in Hk. destruct Hk as (r & Hkey & Hr).
  intros Hnil.
  assert (Hin : In r (filter (fun r => String.eqb (key r) k) frame)).
  { apply filter_In. split; [assumption|]. rewrite Hkey. apply String.eqb_refl. }
  rewrite Hnil in Hin. contradiction.
Qed.

End GroupBy.

Section Resolver.
Variable Geometry : Type.
Variable area : Geometry -> Q.
Variable h3_to_geo_boundary : string -> list (Q * Q).
Variable Polygon : list (Q * Q) -> Geometry.
Variable transform_project : Geometry -> Geometry.

#[local] Abbreviation row := (Fixer.row Geometry).
#[local] Abbreviation best := (Fixer.best Geometry).
#[local] Abbreviation scan := (Fixer.scan Geometry area).
#[local] Abbreviation deduplicate :=
  (Fixer.deduplicate area h3_to_geo_boundary Polygon transform_project).
#[local] Abbreviation hex_geom :=
  (Fixer.hex_geom h3_to_geo_boundary Polygon transform_project).
#[local] Abbreviation resolve_groups :=
  (FixerMain.resolve_groups area h3_to_geo_boundary Polygon transform_project).
#[local] Abbreviation main :=
  (FixerMain.main area h3_to_geo_boundary Polygon transform_project).
#[local] Abbreviation area_of m := (area (geometry m)).

(** ** What the loop logs *)

Lemma scan_log (gid : string) (rows : list row) (st : best) (idx : Z) :
  log _ (scan gid st idx rows) =
  log _ st ++ map (NullEvi gid) (falsy_positions idx rows).
Proof.
  revert st idx. induction rows as [|other rows IH]; intros st idx.
  - cbn. now rewrite app_nil_r.
  - cbn [Fixer.scan falsy_positions]. rewrite IH. unfold Fixer.visit.
    destruct (truthy (evi other)); cbn [negb].
    + destruct (Qgtb _ _); reflexivity.
    + cbn [log map]. now rewrite <- app_assoc.
Qed.

Lemma falsy_positions_In (rows : list row) (start idx : Z) :
  In idx (falsy_positions start rows) <->
  start <= idx
  /\ exists m, nth_error rows (Z.to_nat (idx - start)) = Some m
               /\ truthy (evi m) = false.
Proof.
  revert start. induction rows as [|other rows IH]; intros start.
  - cbn [falsy_positions In]. split; [contradiction|].
    intros (_ & m & H & _). destruct (Z.to_nat (idx - start)); discriminate.
  - assert (Hnext : forall m, start < idx ->
              (nth_error (other :: rows) (Z.to_nat (idx - start)) = Some m <->
               nth_error rows (Z.to_nat (idx - (start + 1))) = Some m)).
    { intros m Hlt.
      replace (Z.to_nat (idx - start)) with (S (Z.to_nat (idx - (start + 1)))) by lia.
      reflexivity. }
    assert (Hlater : In idx (falsy_positions (start + 1) rows) <->
              start < idx
              /\ exists m, nth_error (other :: rows) (Z.to_nat (idx - start)) = Some m
                           /\ truthy (evi m) = false).
    { rewrite IH. split.
      - intros (Hle & m & Hn & Hm). split; [lia|]. exists m. split; [|assumption].
        apply Hnext; [lia | assumption].
      - intros (Hlt & m & Hn & Hm). split; [lia|]. exists m. split; [|assumption].
        now apply Hnext. }
    assert (Hhere : nth_error (other :: rows) (Z.to_nat (start - start)) = Some other)
      by (now rewrite Z.sub_diag).
    cbn [falsy_positions]. destruct (truthy (evi other)) eqn:E.
    + rewrite Hlater. split.
      * intros (Hlt & H). split; [lia | exact H].
      * intros (Hle & m & Hn & Hm). split; [|now exists m].
        destruct (Z.eq_dec idx start) as [->|Hne]; [|lia].
        rewrite Hhere in Hn. injection Hn as <-. congruence.
    + cbn [In]. rewrite Hlater. split.
      * intros [<- | (Hlt & H)]; [|split; [lia | exact H]].
        split; [lia|]. now exists other.
      * intros (Hle & H). destruct (Z.eq_dec idx start) as [->|Hne]; [now left|].
        right. split; [lia | exact H].
Qed.

(** ** A group of two or more members *)

Lemma deduplicate_resolved (first second : row) (rest : list row) :
  let group := first :: second :: rest in
  exists i primary,
    deduplicate group =
      Ok (with_geometry primary (hex_geom (hex_id first)),
          map (NullEvi (hex_id first)) (falsy_positions 0 group))
    /\ first_max area first_or_truthy group i primary.
Proof.
  intros group. unfold group at 1. rewrite deduplicate_group. fold group.
  set (st0 := mk_best Geometry first (area_of first) []).
  set (st := scan (hex_id first) st0 0 group).
  assert (Hsel : Spec.selected area group first_or_truthy (List.length group) st).
  { apply (selected_scan Geometry area group first_or_truthy) with (pre := []).
    - intros j mj _ Hevi. unfold first_or_truthy. rewrite Hevi. apply orb_true_r.
    - intros j mj Hj Hmj Hc. destruct j as [|j]; [lia|]. exact Hc.
    - reflexivity.
    - split; [reflexivity|]. exists 0%nat. cbn. repeat split.
      + intros j mj [Hj| ->] Hmj _; [lia|]. injection Hmj as <-. apply Qle_refl.
      + intros j mj Hj. lia. }
  destruct Hsel as (_ & i & Hi & Hcand & Hmax & Hfirst).
  exists i, (largest_area_row _ st). split.
  - cbn zeta. f_equal. f_equal. unfold st. rewrite scan_log. reflexivity.
  - repeat split; try assumption.
    intros j mj Hmj Hc. apply (Hmax j); [|assumption..].
    left. apply nth_error_Some. congruence.
Qed.

(** X10. In a group of at least two members, whatever their [evi], the
    resolved record carries the id, the [evi] and the other attributes of
    the first member to reach the largest stored-geometry area among the
    candidates, the candidates being the first member and the members whose
    [evi] is true as a truth value (neither [None] nor zero). Its geometry
    is the polygon over the boundary of the cell of the first member's id,
    each coordinate pair flipped, then reprojected. *)
Theorem largest_truthy_candidate_wins (first second : row) (rest : list row) :
  let group := first :: second :: rest in
  exists i primary resolved notes,
    deduplicate group = Ok (resolved, notes)
    /\ first_max area first_or_truthy group i primary
    /\ hex_id resolved = hex_id primary
    /\ evi resolved = evi primary
    /\ attrs resolved = attrs primary
    /\ geometry resolved =
       transform_project
         (Polygon (map (fun coord => (snd coord, fst coord))
                       (h3_to_geo_boundary (hex_id first)))).
Proof.
  intros group. destruct (deduplicate_resolved first second rest) as (i & primary & H & Hmax).
  exists i, primary. do 2 eexists. split; [exact H|]. split; [exact Hmax|].
  repeat split.
Qed.

(** X11. In a group of at least two members, the loop logs one note for
    each member whose [evi] is false as a truth value, the first member
    included, in group order: the note holds the id of the first member and
    the position of the skipped member in the group. Nothing else is
    logged. *)
Theorem deduplicate_notes (first second : row) (rest : list row) :
  let group := first :: second :: rest in
  exists resolved notes,
    deduplicate group = Ok (resolved, notes)
    /\ notes = map (NullEvi (hex_id first)) (falsy_positions 0 group)
    /\ (forall id idx, In (NullEvi id idx) notes <->
          id = hex_id first /\ 0 <= idx
          /\ exists m, nth_error group (Z.to_nat idx) = Some m /\ truthy (evi m) = false)
    /\ (List.length notes <= List.length group)%nat.
Proof.
  intros group. destruct (deduplicate_resolved first second rest) as (i & primary & H & _).
  fold group in H. do 2 eexists. split; [exact H|]. split; [reflexivity|]. split.
  - intros id idx. rewrite in_map_iff. split.
    + intros (k & E & Hk). injection E as <- <-.
      apply falsy_positions_In in Hk. rewrite Z.sub_0_r in Hk. tauto.
    + intros (-> & Hpos & Hm). exists idx. split; [reflexivity|].
      apply falsy_positions_In. rewrite Z.sub_0_r. tauto.
  - rewrite length_map. generalize 0 as start. generalize group as rows.
    induction rows as [|m rows IH]; intros start; cbn [falsy_positions List.length]; [lia|].
    specialize (IH (start + 1)). destruct (truthy (evi m)); cbn [List.length]; lia.
Qed.

(** ** main *)

Lemma deduplicate_resolves (b : list row) :
  b <> [] ->
  exists r, deduplicate b = Ok (r, group_notes b) /\ resolves area hex_geom b r.
Proof.
  intros Hne. destruct b as [|first [|second rest]]; [congruence | |].
  - exists first. split; reflexivity.
  - destruct (deduplicate_resolved first second rest) as (i & primary & H & Hmax).
    eexists. split; [exact H|]. exists i, primary. split; [exact Hmax | reflexivity].
Qed.

Lemma resolve_groups_resolves (groups : list (string * list row))
    (rows : list row) (notes : list log_record) :
  Forall (fun g => snd g <> []) groups ->
  exists resolved,
    resolve_groups groups rows notes =
      Ok (rows ++ resolved, notes ++ flat_map (fun g => group_notes (snd g)) groups)
    /\ Forall2 (fun g r => resolves area hex_geom (snd g) r) groups resolved.
Proof.
  intros Hall. revert rows notes.
  induction Hall as [|[a b] groups Hb _ IH]; intros rows notes.
  - exists []. cbn. rewrite !app_nil_r. split; [reflexivity | constructor].
  - cbn [snd] in Hb. destruct (deduplicate_resolves b Hb) as (r & Hr & Hres).
    destruct (IH (rows ++ [r]) (notes ++ group_notes b)) as (resolved & Hrun & Hrest).
    exists (r :: resolved). cbn [FixerMain.resolve_groups flat_map snd].
    rewrite Hr. cbn [bind fst snd]. rewrite Hrun, <- !app_assoc. split; [reflexivity|].
    constructor; assumption.
Qed.

(** What [resolves] says of a group of the frame. *)
Lemma resolves_members (gdf : list row) (id : string) (r : row) :
  resolves area hex_geom (members gdf id) r ->
  exists i m,
    first_max area first_or_truthy (members gdf id) i m
    /\ In m gdf /\ hex_id m = id
    /\ hex_id r = id /\ evi r = evi m /\ attrs r = attrs m
    /\ (bearing gdf id = 1%nat -> r = m)
    /\ (bearing gdf id <> 1%nat ->
        geometry r =
        transform_project
          (Polygon (map (fun coord => (snd coord, fst coord)) (h3_to_geo_boundary id)))).
Proof.
  unfold bearing.
  assert (Hmem : forall m, In m (members gdf id) -> In m gdf /\ hex_id m = id).
  { intros m Hm. apply filter_In in Hm. destruct Hm as [Hm E].
    apply String.eqb_eq in E. tauto. }
  destruct (members gdf id) as [|first [|second rest]] eqn:E; cbn [resolves]; [contradiction| |].
  - intros ->. destruct (Hmem first) as [Hin Hid]; [now left|].
    exists 0%nat, first.
    split; [|split; [exact Hin | split; [exact Hid | split; [exact Hid |
             split; [reflexivity | split; [reflexivity | split]]]]]].
    + split; [reflexivity|]. split; [reflexivity|]. split.
      * intros [|[|j]] mj Hmj _; cbn in Hmj; try discriminate.
        injection Hmj as <-. apply Qle_refl.
      * intros j mj Hj. lia.
    + reflexivity.
    + cbn [List.length]. congruence.
  - intros (i & primary & Hmax & ->).
    pose proof Hmax as [Hi _]. apply nth_error_In in Hi.
    destruct (Hmem primary Hi) as [Hin Hid].
    destruct (Hmem first) as [_ Hfirst]; [now left|].
    exists i, primary. cbn [with_geometry hex_id evi attrs geometry].
    split; [exact Hmax | split; [exact Hin | split; [exact Hid | split; [exact Hid |
             split; [reflexivity | split; [reflexivity | split]]]]]].
    + cbn [List.length]. discriminate.
    + intros _. now rewrite Hfirst.
Qed.

Lemma main_resolves (gdf : list row) :
  exists resolved,
    main gdf =
      Ok (resolved,
          flat_map (fun id => group_notes (members gdf id)) (Pandas.group_keys hex_id gdf))
    /\ Forall2 (fun id r => resolves area hex_geom (members gdf id) r)
               (Pandas.group_keys hex_id gdf) resolved.
Proof.
  unfold FixerMain.main.
  destruct (resolve_groups_resolves (Pandas.groupby hex_id gdf) [] []) as (resolved & Hrun & Hall).
  { eapply Forall_impl; [|apply groupby_groups]. cbn. tauto. }
  assert (Hmain : main gdf = resolve_groups (Pandas.groupby hex_id gdf) [] []) by reflexivity.
  exists resolved. rewrite Hrun. cbn [app]. unfold Pandas.groupby in *. split.
  - f_equal. f_equal. rewrite flat_map_concat_map, map_map, <- flat_map_concat_map. reflexivity.
  - clear Hrun Hmain. revert resolved Hall.
    induction (Pandas.group_keys hex_id gdf) as [|k keys IH]; intros resolved Hall;
      inversion Hall; subst; constructor; auto.
Qed.

Lemma resolved_ids (gdf : list row) (keys : list string) (resolved : list row) :
  Forall2 (fun id r => resolves area hex_geom (members gdf id) r) keys resolved ->
  map hex_id resolved = keys.
Proof.
  induction 1 as [|id r keys resolved Hr _ IH]; [reflexivity|].
  cbn [map]. rewrite IH. f_equal.
  destruct (resolves_members gdf id r Hr) as (_ & _ & _ & _ & _ & H & _). exact H.
Qed.

(** X12. Whatever the frame, [main] raises nothing and writes one row per
    distinct [hex_id] of the frame: the ids of the rows written are the ids
    of the frame, each once, in ascending order, so that no more rows are
    written than read. *)
Theorem main_one_row_per_id (gdf : list row) :
  exists resolved notes,
    main gdf = Ok (resolved, notes)
    /\ NoDup (map hex_id resolved)
    /\ ascending (map hex_id resolved)
    /\ (forall id, In id (map hex_id resolved) <-> In id (map hex_id gdf))
    /\ (List.length resolved <= List.length gdf)%nat.
Proof.
  destruct (main_resolves gdf) as (resolved & Hmain & Hall).
  pose proof (resolved_ids gdf _ _ Hall) as Hids.
  exists resolved. eexists. split; [exact Hmain|]. rewrite Hids.
  split; [apply group_keys_NoDup|]. split; [apply group_keys_ascending|].
  split; [apply group_keys_In|].
  rewrite <- (length_map hex_id resolved), Hids, <- (length_map hex_id gdf).
  apply NoDup_incl_length; [apply group_keys_NoDup|].
  intros id. apply group_keys_In.
Qed.

(** X13. Each row [main] writes comes from the rows of the frame that bear
    its id: it carries the [evi] and the other attributes of the first of
    those rows to reach the largest stored-geometry area among the first one
    and those with a true [evi]. When one row bears the id, that row is
    written unchanged, stored geometry included; otherwise the geometry
    written is the polygon over the boundary of the cell of the id, each
    coordinate pair flipped, then reprojected. *)
Theorem main_rows (gdf : list row) :
  exists resolved notes,
    main gdf = Ok (resolved, notes)
    /\ forall r, In r resolved ->
         exists i m,
           first_max area first_or_truthy (members gdf (hex_id r)) i m
           /\ In m gdf /\ hex_id m = hex_id r
           /\ evi r = evi m /\ attrs r = attrs m
           /\ (bearing gdf (hex_id r) = 1%nat -> r = m)
           /\ (bearing gdf (hex_id r) <> 1%nat ->
               geometry r =
               transform_project
                 (Polygon (map (fun coord => (snd coord, fst coord))
                               (h3_to_geo_boundary (hex_id r))))).
Proof.
  destruct (main_resolves gdf) as (resolved & Hmain & Hall).
  exists resolved. eexists. split; [exact Hmain|].
  clear Hmain. intros r Hr. revert Hall Hr. generalize (Pandas.group_keys hex_id gdf) as keys.
  intros keys Hall. induction Hall as [|id r' keys resolved Hres _ IH]; [contradiction|].
  intros [->|Hr]; [|now apply IH].
  destruct (resolves_members gdf id r Hres) as (i & m & Hmax & Hin & Hm & Hid & Hevi & Hat & H1 & H2).
  rewrite Hid. exists i, m. tauto.
Qed.

(** X14. [main] logs a note exactly for the rows whose [evi] is false as a
    truth value among the rows of an id that two or more rows bear, with
    that id and the position of the row among them. A row that alone bears
    its id is never noted, whatever its [evi]. *)
Theorem main_notes (gdf : list row) :
  exists resolved notes,
    main gdf = Ok (resolved, notes)
    /\ forall id idx,
         In (NullEvi id idx) notes <->
         (2 <= bearing gdf id)%nat /\ 0 <= idx
         /\ exists m, nth_error (members gdf id) (Z.to_nat idx) = Some m
                      /\ truthy (evi m) = false.
Proof.
  destruct (main_resolves gdf) as (resolved & Hmain & _).
  exists resolved. eexists. split; [exact Hmain|].
  intros id idx. rewrite in_flat_map.
  assert (Hgroup : forall k,
            In (NullEvi id idx) (group_notes (members gdf k)) <->
            (2 <= bearing gdf k)%nat /\ In k (map hex_id gdf) /\ id = k
            /\ In idx (falsy_positions 0 (members gdf k))).
  { intros k. unfold bearing.
    assert (Hmem : forall m, In m (members gdf k) -> In m gdf /\ hex_id m = k).
    { intros m Hm. apply filter_In in Hm. destruct Hm as [Hm E].
      apply String.eqb_eq in E. tauto. }
    destruct (members gdf k) as [|first [|second rest]] eqn:E; cbn [group_notes List.length].
    - cbn. split; [contradiction | lia].
    - cbn [In]. split; [contradiction | lia].
    - destruct (Hmem first) as [Hin Hfirst]; [now left|].
      rewrite in_map_iff. split.
      + intros (j & Ej & Hj). injection Ej as <- <-.
        repeat split; [lia | | assumption | assumption].
        rewrite <- Hfirst. now apply in_map.
      + intros (_ & _ & -> & Hj). exists idx. split; [now rewrite Hfirst | assumption]. }
  split.
  - intros (k & _ & Hk). apply Hgroup in Hk. destruct Hk as (Hn & _ & -> & Hidx).
    apply falsy_positions_In in Hidx. rewrite Z.sub_0_r in Hidx. tauto.
  - intros (Hn & Hpos & Hm). exists id.
    assert (Hid : In id (map hex_id gdf)).
    { destruct Hm as (m & Hm & _). apply nth_error_In, filter_In in Hm.
      destruct Hm as [Hm E]. apply String.eqb_eq in E. subst id. now apply in_map. }
    split; [now apply group_keys_In|].
    apply Hgroup. repeat split; try assumption.
    apply falsy_positions_In. rewrite Z.sub_0_r. tauto.
Qed.

End Resolver.

(** ** The scenarios *)

#[local] Abbreviation on_shapes lemma :=
  (lemma Scenario.shape Scenario.shape_area Scenario.boundary Scenario.Ring
         Scenario.Projected).

(** Group E: the second member, of larger area and with an [evi] of zero,
    is no candidate, and the attributes of the first one are copied. *)
Lemma largest_truthy_candidate_wins_witness :
  exists i primary resolved notes,
    Scenario.resolve [Scenario.e1; Scenario.e2] = Ok (resolved, notes)
    /\ first_max Scenario.shape_area first_or_truthy [Scenario.e1; Scenario.e2] i primary
    /\ attrs resolved = [("name", "member1")]
    /\ geometry resolved = Scenario.Projected (Scenario.Ring [(0, 0); (1, 0); (0, 1)]%Q).
Proof.
  destruct (on_shapes largest_truthy_candidate_wins Scenario.e1 Scenario.e2 [])
    as (i & primary & resolved & notes & Hrun & Hmax & _ & _ & _ & Hgeom).
  exists i, primary, resolved, notes.
  split; [exact Hrun|]. split; [exact Hmax|]. split; [|exact Hgeom].
  change (Scenario.resolve [Scenario.e1; Scenario.e2] = Ok (resolved, notes)) in Hrun.
  vm_compute in Hrun. injection Hrun as <- _. reflexivity.
Defined.

(** Group C: the first member, without [evi], is noted at position 0. *)
Lemma deduplicate_notes_witness :
  exists resolved notes,
    Scenario.resolve [Scenario.c1; Scenario.c2] = Ok (resolved, notes)
    /\ notes = [NullEvi "C" 0].
Proof.
  destruct (on_shapes deduplicate_notes Scenario.c1 Scenario.c2 [])
    as (resolved & notes & Hrun & Hnotes & _).
  exists resolved, notes. split; [exact Hrun | exact Hnotes].
Defined.

(** The frame D, S, C, D, C, D gives the rows of C, D and S. *)
Lemma main_one_row_per_id_witness :
  ScenarioMore.run_main ScenarioMore.frame =
    Ok ([with_geometry Scenario.c1 (Scenario.cell_polygon "C");
         with_geometry Scenario.d2 (Scenario.cell_polygon "D");
         Scenario.s1],
        [NullEvi "C" 0])
  /\ exists resolved notes,
       ScenarioMore.run_main ScenarioMore.frame = Ok (resolved, notes)
       /\ NoDup (map hex_id resolved)
       /\ ascending (map hex_id resolved)
       /\ (forall id, In id (map hex_id resolved) <-> In id (map hex_id ScenarioMore.frame))
       /\ (List.length resolved <= List.length ScenarioMore.frame)%nat.
Proof.
  split; [reflexivity|].
  exact (on_shapes main_one_row_per_id ScenarioMore.frame).
Defined.

(** In that frame the row of S is written as stored and the row of D has
    the cell polygon. *)
Lemma main_rows_witness :
  (In Scenario.s1 ScenarioMore.frame
   /\ bearing ScenarioMore.frame "S" = 1%nat /\ bearing ScenarioMore.frame "D" = 3%nat)
  /\ exists resolved notes,
       ScenarioMore.run_main ScenarioMore.frame = Ok (resolved, notes)
       /\ In Scenario.s1 resolved
       /\ forall r, In r resolved -> hex_id r = "D" ->
                    geometry r =
                    Scenario.Projected (Scenario.Ring [(0, 0); (1, 0); (0, 1)]%Q).
Proof.
  split; [split; [cbn; tauto | split; reflexivity]|].
  destruct (on_shapes main_rows ScenarioMore.frame) as (resolved & notes & Hrun & Hrows).
  exists resolved, notes. split; [exact Hrun|]. split.
  - change (ScenarioMore.run_main ScenarioMore.frame = Ok (resolved, notes)) in Hrun.
    vm_compute in Hrun. injection Hrun as <- _. cbn. tauto.
  - intros r Hr Hid. destruct (Hrows r Hr) as (_ & _ & _ & _ & _ & _ & _ & _ & Hgeom).
    rewrite Hid in Hgeom. apply Hgeom. cbn. discriminate.
Defined.

(** In that frame the one note is for the first row of C. *)
Lemma main_notes_witness :
  (2 <= bearing ScenarioMore.frame "C")%nat
  /\ nth_error (members ScenarioMore.frame "C") 0 = Some Scenario.c1
  /\ exists resolved notes,
       ScenarioMore.run_main ScenarioMore.frame = Ok (resolved, notes)
       /\ In (NullEvi "C" 0) notes.
Proof.
  assert (Hn : (2 <= bearing ScenarioMore.frame "C")%nat) by (cbn; lia).
  split; [exact Hn|]. split; [reflexivity|].
  destruct (on_shapes main_notes ScenarioMore.frame) as (resolved & notes & Hrun & Hnotes).
  exists resolved, notes. split; [exact Hrun|].
  apply Hnotes. split; [exact Hn|]. split; [lia|].
  exists Scenario.c1. split; reflexivity.
Defined.

End ResolveFacts.
